(** * diagnose.py: the diagnostic reporter of the IP checker

    A shallow embedding of [src/diagnose.py].  The script has one function,
    [diagnose_issues], which probes three fixed files, lists one directory,
    scans one log file with six regular expressions and prints a fixed list
    of hints.  Python values are modelled as follows:

    - a [str] is a list of Unicode code points ([pystr]);
    - the content of a file is a list of bytes, decoded as UTF-8 when the
      log is read in text mode;
    - the file system is a finite map from path strings to nodes;
    - the console is the list of the texts handed to [print], oldest first;
      it takes UTF-8 with the strict error handler, so [print] raises on a
      text that holds a lone surrogate;
    - the run is a computation in a state-and-exception monad over the pair
      of the file system and the console. *)

From Stdlib Require Import NArith List Lia Decimal DecimalN Permutation.
From stdpp Require Import base option list gmap strings.

Open Scope N_scope.

(** ** Text *)

(** A Python [str]: a sequence of Unicode code points. *)
Abbreviation pystr := (list N).

Module Utf8.

(** [lo <= b <= hi] on byte values. *)
Definition between (lo hi b : N) : bool := (lo <=? b) && (b <=? hi).

(** A continuation byte, 10xxxxxx. *)
Definition cont (b : N) : bool := between 0x80 0xBF b.

(** The payload of a continuation byte. *)
Definition low6 (b : N) : N := b - 0x80.

(** The range allowed for the second byte of a three-byte sequence:
    [E0] excludes overlong forms, [ED] excludes the surrogates. *)
Definition second3 (b0 : N) : N * N :=
  if b0 =? 0xE0 then (0xA0, 0xBF)
  else if b0 =? 0xED then (0x80, 0x9F)
  else (0x80, 0xBF).

(** The range allowed for the second byte of a four-byte sequence:
    [F0] excludes overlong forms, [F4] stops at U+10FFFF. *)
Definition second4 (b0 : N) : N * N :=
  if b0 =? 0xF0 then (0x90, 0xBF)
  else if b0 =? 0xF4 then (0x80, 0x8F)
  else (0x80, 0xBF).

(** The strict decoder behind [open(..., encoding='utf-8')]: [None] stands
    for [UnicodeDecodeError]. *)
Fixpoint decode (bs : list N) : option pystr :=
  match bs with
  | [] => Some []
  | b0 :: t0 =>
    if b0 <? 0x80 then cons b0 <$> decode t0
    else if between 0xC2 0xDF b0 then
      match t0 with
      | b1 :: t1 =>
        if cont b1
        then cons ((b0 - 0xC0) * 64 + low6 b1) <$> decode t1
        else None
      | _ => None
      end
    else if between 0xE0 0xEF b0 then
      match t0 with
      | b1 :: b2 :: t2 =>
        if between (fst (second3 b0)) (snd (second3 b0)) b1 && cont b2
        then cons ((b0 - 0xE0) * 4096 + low6 b1 * 64 + low6 b2)
               <$> decode t2
        else None
      | _ => None
      end
    else if between 0xF0 0xF4 b0 then
      match t0 with
      | b1 :: b2 :: b3 :: t3 =>
        if between (fst (second4 b0)) (snd (second4 b0)) b1
           && cont b2 && cont b3
        then cons ((b0 - 0xF0) * 262144 + low6 b1 * 4096
                   + low6 b2 * 64 + low6 b3) <$> decode t3
        else None
      | _ => None
      end
    else None
  end.

(** The bytes of a source-code literal. *)
Definition bytes_of (s : string) : list N :=
  map Byte.to_N (String.list_byte_of_string s).

End Utf8.

(** A string literal of the script, as the [str] Python builds from it. *)
Definition u (s : string) : pystr :=
  default [] (Utf8.decode (Utf8.bytes_of s)).

(** ** Numbers in f-strings *)

(** The code point of each digit of a decimal numeral, most significant
    first. *)
Fixpoint digits_of (d : uint) : pystr :=
  match d with
  | Nil => []
  | D0 d => 48 :: digits_of d
  | D1 d => 49 :: digits_of d
  | D2 d => 50 :: digits_of d
  | D3 d => 51 :: digits_of d
  | D4 d => 52 :: digits_of d
  | D5 d => 53 :: digits_of d
  | D6 d => 54 :: digits_of d
  | D7 d => 55 :: digits_of d
  | D8 d => 56 :: digits_of d
  | D9 d => 57 :: digits_of d
  end.

(** [f"{n}"] for a non-negative integer. *)
Definition str_of_N (n : N) : pystr := digits_of (N.to_uint n).

(** [f"{len(xs)}"]. *)
Definition str_of_len {A} (xs : list A) : pystr :=
  str_of_N (N.of_nat (length xs)).

(** A comma after every third digit, on the digits taken least significant
    first, as long as digits remain. *)
Fixpoint group3 (ds : pystr) : pystr :=
  match ds with
  | a :: b :: c :: ((_ :: _) as rest) => a :: b :: c :: 44 :: group3 rest
  | _ => ds
  end.

(** [f"{n:,}"]: decimal with thousands separators. *)
Definition fmt_thousands (n : N) : pystr :=
  rev (group3 (rev (str_of_N n))).

(** ** Regular expressions

    The fragment of Python's [re] syntax that the six patterns of the script
    use: literals, [.], [\d], greedy and lazy repetition of a one-character
    class, concatenation, alternation and one capture group.  [\d] on a
    [str] pattern matches the decimal digits of the Unicode database of the
    interpreter; the database is not part of the script, so the test is a
    parameter [is_decimal] of the development. *)

Inductive cset : Type :=
| Chr (c : N)   (* a literal code point *)
| Dot           (* [.]: anything but a line feed *)
| Digit.        (* [\d] *)

Inductive re : Type :=
| Eps
| One (cs : cset)
| Star (greedy : bool) (cs : cset)   (* [x*] when greedy, else [x*?] *)
| Seq (r1 r2 : re)
| Alt (r1 r2 : re)
| Group (r : re).

(** A literal run of code points. *)
Definition Lit (s : pystr) : re :=
  foldr (fun c r => Seq (One (Chr c)) r) Eps s.

(** [x+]. *)
Definition Plus (cs : cset) : re := Seq (One cs) (Star true cs).

Fixpoint has_group (r : re) : bool :=
  match r with
  | Eps | One _ | Star _ _ => false
  | Seq r1 r2 | Alt r1 r2 => has_group r1 || has_group r2
  | Group _ => true
  end.

Declare Scope re_scope.
Delimit Scope re_scope with re.
Bind Scope re_scope with re.
Infix "·" := Seq (at level 40, left associativity) : re_scope.
Infix "∣" := Alt (at level 50, left associativity) : re_scope.

Section Engine.

Variable is_decimal : N -> bool.

Definition cset_mem (cs : cset) (c : N) : bool :=
  match cs with
  | Chr a => c =? a
  | Dot => negb (c =? 10)
  | Digit => is_decimal c
  end.

(** What a finished match hands back: the rest of the subject and the text
    of the capture group, if the group took part. *)
Definition outcome : Type := pystr * option pystr.

(** The continuation of a match: given the rest of the subject and the
    capture so far, finish the match or fail. *)
Definition cont : Type := pystr -> option pystr -> option outcome.

(** Greedy repetition: take as many as possible, give back one at a time. *)
Fixpoint star_greedy (cs : cset) (s : pystr) (k : pystr -> option outcome)
  : option outcome :=
  match s with
  | c :: s' =>
    if cset_mem cs c
    then match star_greedy cs s' k with
         | Some x => Some x
         | None => k s
         end
    else k s
  | [] => k []
  end.

(** Lazy repetition: take as few as possible, one more on failure. *)
Fixpoint star_lazy (cs : cset) (s : pystr) (k : pystr -> option outcome)
  : option outcome :=
  match k s with
  | Some x => Some x
  | None =>
    match s with
    | c :: s' => if cset_mem cs c then star_lazy cs s' k else None
    | [] => None
    end
  end.

(** The backtracking matcher: the first alternative that lets the
    continuation succeed wins. *)
Fixpoint mt (r : re) (s : pystr) (g : option pystr) (k : cont)
  : option outcome :=
  match r with
  | Eps => k s g
  | One cs =>
    match s with
    | c :: s' => if cset_mem cs c then k s' g else None
    | [] => None
    end
  | Star true cs => star_greedy cs s (fun s' => k s' g)
  | Star false cs => star_lazy cs s (fun s' => k s' g)
  | Seq r1 r2 => mt r1 s g (fun s' g' => mt r2 s' g' k)
  | Alt r1 r2 =>
    match mt r1 s g k with
    | Some x => Some x
    | None => mt r2 s g k
    end
  | Group r1 =>
    mt r1 s g (fun s' _ => k s' (Some (take (length s - length s') s)))
  end.

(** The match that starts at the head of [s], if any: its length and the
    item [re.findall] reports for it, which is the text of the group when
    the pattern has one and the whole match otherwise. *)
Definition match_here (r : re) (s : pystr) : option (nat * pystr) :=
  match mt r s None (fun s' g => Some (s', g)) with
  | Some (s', g) =>
    let n := (length s - length s')%nat in
    Some (n, if has_group r then default [] g else take n s)
  | None => None
  end.

(** The scan of [re.findall]: [skip] counts the code points still covered
    by the last match.  After a match of length [n] the search resumes [n]
    code points further; without a match, one code point further.  None of
    the patterns of the script matches the empty string, so no attempt is
    made at the end of the subject. *)
Fixpoint scan (r : re) (s : pystr) (skip : nat) : list pystr :=
  match s with
  | [] => []
  | _ :: s' =>
    match skip with
    | S j => scan r s' j
    | O =>
      match match_here r s with
      | Some (n, item) => item :: scan r s' (n - 1)
      | None => scan r s' 0
      end
    end
  end.

(** [re.findall(pattern, content)]. *)
Definition findall (r : re) (content : pystr) : list pystr :=
  scan r content 0.

(** *** The patterns of the script *)

(** [r"🏠 发现.*?个住宅IP"] *)
Definition pat_found : re :=
  (Lit (u "🏠 发现") · Star false Dot · Lit (u "个住宅IP"))%re.

(** [r"💾 已写入.*?个住宅IP"] *)
Definition pat_written : re :=
  (Lit (u "💾 已写入") · Star false Dot · Lit (u "个住宅IP"))%re.

(** [r"🗑️ 已删除.*?住宅"] *)
Definition pat_deleted : re :=
  (Lit (u "🗑️ 已删除") · Star false Dot · Lit (u "住宅"))%re.

(** [r"GeoIP.*未加载|数据库.*未加载"] *)
Definition pat_geoip : re :=
  ((Lit (u "GeoIP") · Star true Dot · Lit (u "未加载"))
   ∣ (Lit (u "数据库") · Star true Dot · Lit (u "未加载")))%re.

(** [r"国家代码.*查询"] *)
Definition pat_country : re :=
  (Lit (u "国家代码") · Star true Dot · Lit (u "查询"))%re.

(** [r"\d+\.\d+\.\d+\.\d+"], the group of the sixth pattern. *)
Definition pat_dotted : re :=
  (Plus Digit · One (Chr 46) · Plus Digit · One (Chr 46)
   · Plus Digit · One (Chr 46) · Plus Digit)%re.

(** [r"🏠 住宅IP.*?(\d+\.\d+\.\d+\.\d+)"] *)
Definition pat_ip : re :=
  (Lit (u "🏠 住宅IP") · Star false Dot · Group pat_dotted)%re.

(** The table of the pattern loop, in the order of the script. *)
Definition patterns : list (pystr * re) :=
  [ (u "住宅IP发现", pat_found);
    (u "文件写入", pat_written);
    (u "文件删除", pat_deleted);
    (u "GeoIP错误", pat_geoip);
    (u "国家代码", pat_country) ].

End Engine.

(** [\d] restricted to ASCII, the digits every Unicode database has. *)
Definition ascii_digit (c : N) : bool := (48 <=? c) && (c <=? 57).

(** The line feed, [\n] in the literals of the script. *)
Definition nl : pystr := [10].

(** ** The file system and the console *)

(** A [pathlib.Path]: the directory part and the final component. *)
Record Path : Type := mkPath { parent : pystr; name : pystr }.

(** The text of a path, the key under which the file system knows it. *)
Definition path_text (p : Path) : pystr := parent p ++ u "/" ++ name p.

(** What a path leads to: a regular file with its bytes, or a directory
    with the size [stat] reports for it and the names of its entries in the
    order in which the operating system enumerates them.  The names are
    [str] values as the interpreter hands them out: a byte of a name that
    is not valid UTF-8 arrives as a lone surrogate ([U+DC80] to
    [U+DCFF]). *)
Inductive node : Type :=
| File (data : list Byte.byte)
| Dir (size : N) (entries : list pystr).

(** [st_size]. *)
Definition st_size (n : node) : N :=
  match n with
  | File data => N.of_nat (length data)
  | Dir size _ => size
  end.

(** The part of the world the script touches. *)
Record world : Type := World {
  fs : gmap pystr node;       (* the file system, by path text *)
  stdout : list pystr         (* the texts printed so far, oldest first *)
}.

(** The exceptions the calls of the script can raise. *)
Inductive exn : Type :=
| FileNotFoundError
| IsADirectoryError
| UnicodeDecodeError
| UnicodeEncodeError.

Inductive result (A : Type) : Type :=
| Ok (a : A)
| Raise (e : exn).
Arguments Ok {A} a.
Arguments Raise {A} e.

(** A computation: it reads and changes the world and returns or raises. *)
Definition M (A : Type) : Type := world -> result A * world.

#[global] Instance M_ret : MRet M := fun A a w => (Ok a, w).

#[global] Instance M_bind : MBind M := fun A B f m w =>
  match m w with
  | (Ok a, w') => f a w'
  | (Raise e, w') => (Raise e, w')
  end.

(** The console takes UTF-8 with the strict error handler, the default of
    the interpreter: a text can be written when each of its code points is
    a Unicode scalar value.  A lone surrogate cannot be encoded; the name of
    a directory entry whose bytes are not valid UTF-8 holds one. *)
Definition scalar (c : N) : bool :=
  (c <? 0xD800) || ((0xDFFF <? c) && (c <? 0x110000)).

Definition encodable (s : pystr) : bool := forallb scalar s.

(** [print(s)]: [UnicodeEncodeError] when the console cannot encode [s];
    nothing of [s] is written then. *)
Definition print (s : pystr) : M unit := fun w =>
  if encodable s
  then (Ok tt, {| fs := fs w; stdout := stdout w ++ [s] |})
  else (Raise UnicodeEncodeError, w).

(** [path.exists()]. *)
Definition path_exists (p : Path) : M bool := fun w =>
  (Ok (bool_decide (is_Some (fs w !! path_text p))), w).

(** [path.stat().st_size]. *)
Definition stat_size (p : Path) : M N := fun w =>
  match fs w !! path_text p with
  | Some n => (Ok (st_size n), w)
  | None => (Raise FileNotFoundError, w)
  end.

(** [list(path.glob("*"))]: the entries of a directory, nothing for a path
    that is not a directory. *)
Definition glob_star (p : Path) : M (list Path) := fun w =>
  match fs w !! path_text p with
  | Some (Dir _ entries) => (Ok (map (mkPath (path_text p)) entries), w)
  | _ => (Ok [], w)
  end.

(** Text mode with universal newlines: [\r\n] and a lone [\r] are read as
    [\n]. *)
Fixpoint universal_newlines (s : pystr) : pystr :=
  match s with
  | [] => []
  | c :: t =>
    if c =? 13
    then 10 :: match t with
               | d :: t' => if d =? 10 then universal_newlines t'
                            else universal_newlines t
               | [] => []
               end
    else c :: universal_newlines t
  end.

(** [with open(path, 'r', encoding='utf-8') as f: content = f.read()]. *)
Definition read_text (p : Path) : M pystr := fun w =>
  match fs w !! path_text p with
  | Some (File data) =>
    match Utf8.decode (map Byte.to_N data) with
    | Some s => (Ok (universal_newlines s), w)
    | None => (Raise UnicodeDecodeError, w)
    end
  | Some (Dir _ _) => (Raise IsADirectoryError, w)
  | None => (Raise FileNotFoundError, w)
  end.

(** [for x in xs: body]. *)
Fixpoint for_each {A} (xs : list A) (body : A -> M unit) : M unit :=
  match xs with
  | [] => mret tt
  | x :: xs' => body x ;; for_each xs' body
  end.

(** ** The script *)

Section Script.

Variable is_decimal : N -> bool.

(** ["D:/IP/IP检测/IP-validity"], the directory all paths hang off. *)
Definition base_dir : pystr := u "D:/IP/IP检测/IP-validity".

Definition files_to_check : list pystr :=
  [ u "ip-checker-debug.exe"; u "GeoLite2-Country.mmdb"; u "config.ini" ].

Definition output_dir : Path := mkPath base_dir (u "OUTPUT").

Definition log_file : Path := mkPath base_dir (u "check_log.txt").

(** The loop over [files_to_check]. *)
Definition check_artifacts : M unit :=
  for_each files_to_check (fun file =>
    let path := mkPath base_dir file in
    present ← path_exists path;
    if present : bool then
      size ← stat_size path;
      print (u "✅ " ++ file ++ u ": 存在 (" ++ fmt_thousands size
             ++ u " 字节)")
    else
      print (u "❌ " ++ file ++ u ": 不存在")).

(** The listing of the output directory. *)
Definition list_output : M unit :=
  present ← path_exists output_dir;
  if present : bool then
    files ← glob_star output_dir;
    print (u "✅ OUTPUT目录: 存在 (" ++ str_of_len files ++ u " 个文件)");;
    for_each files (fun file => print (u "   - " ++ name file))
  else
    print (u "❌ OUTPUT目录: 不存在").

(** The body of the pattern loop for one row of the table. *)
Definition report_pattern (content : pystr) (row : pystr * re) : M unit :=
  let '(label, pattern) := row in
  let matches := findall is_decimal pattern content in
  match matches with
  | _ :: _ =>
    print (u "✅ " ++ label ++ u ": 找到 " ++ str_of_len matches
           ++ u " 条记录");;
    for_each (take 3 matches) (fun m => print (u "   - " ++ m))
  | [] =>
    print (u "❌ " ++ label ++ u ": 未找到相关记录")
  end.

(** The search for residential addresses after the pattern loop. *)
Definition report_ips (content : pystr) : M unit :=
  let residential_matches := findall is_decimal pat_ip content in
  match residential_matches with
  | _ :: _ =>
    print (nl ++ u "🏠 发现的住宅IP示例:");;
    for_each (take 5 residential_matches) (fun ip => print (u "   - " ++ ip))
  | [] => mret tt
  end.

(** The analysis of the log. *)
Definition analyze_log : M unit :=
  present ← path_exists log_file;
  if present : bool then
    content ← read_text log_file;
    print (nl ++ u "=== 日志分析 ===");;
    for_each patterns (report_pattern content);;
    report_ips content
  else
    print (u "❌ 日志文件不存在").

(** The texts of the closing hints, one per [print]. *)
Definition hints : list pystr :=
  [ nl ++ u "=== 可能的问题和解决方案 ===";
    u "1. 如果GeoIP数据库未加载:";
    u "   - 检查 GeoLite2-Country.mmdb 文件是否损坏";
    u "   - 尝试重新下载GeoIP数据库";
    u "2. 如果住宅IP文件被删除:";
    u "   - 检查写入权限";
    u "   - 检查磁盘空间";
    u "3. 如果国家信息为空:";
    u "   - 检查IPDetails字段是否正确赋值";
    u "   - 验证GeoIP数据库查询结果" ].

Definition print_hints : M unit := for_each hints print.

(** [diagnose_issues()]. *)
Definition diagnose_issues : M unit :=
  print (u "=== IP检测工具问题诊断 ===" ++ nl);;
  check_artifacts;;
  list_output;;
  analyze_log;;
  print_hints.

End Script.

(** * Notions of the specification *)

Section Language.

Variable is_decimal : N -> bool.

(** The words a pattern denotes, without regard to the order in which the
    matcher tries them. *)
Inductive lang : re -> pystr -> Prop :=
| lang_eps : lang Eps []
| lang_one cs c : cset_mem is_decimal cs c = true -> lang (One cs) [c]
| lang_star b cs w :
    Forall (fun c => cset_mem is_decimal cs c = true) w ->
    lang (Star b cs) w
| lang_seq r1 r2 w1 w2 :
    lang r1 w1 -> lang r2 w2 -> lang (Seq r1 r2) (w1 ++ w2)
| lang_alt_l r1 r2 w : lang r1 w -> lang (Alt r1 r2) w
| lang_alt_r r1 r2 w : lang r2 w -> lang (Alt r1 r2) w
| lang_group r w : lang r w -> lang (Group r) w.

(** The texts a capture group of the pattern can hold. *)
Fixpoint captures (r : re) (c : pystr) : Prop :=
  match r with
  | Eps | One _ | Star _ _ => False
  | Seq r1 r2 | Alt r1 r2 => captures r1 c \/ captures r2 c
  | Group r1 => lang r1 c
  end.

(** [m] is a contiguous piece of [s]. *)
Definition substring (m s : pystr) : Prop :=
  exists a b, s = a ++ m ++ b.

(** The pattern occurs somewhere in the text. *)
Definition occurs (r : re) (s : pystr) : Prop :=
  exists w, substring w s /\ lang r w.

(** The non-overlapping occurrences of a pattern in a text, read from left
    to right: each one starts at the first place after the previous one
    where the pattern occurs, and is the shortest occurrence that starts
    there.  This is what a lazy pattern selects. *)
Inductive occurrences (r : re) : pystr -> list pystr -> Prop :=
| occ_none s : ~ occurs r s -> occurrences r s []
| occ_next gap m rest ms :
    lang r m ->
    (forall g1 g2 w t,
        gap = g1 ++ g2 -> g2 <> [] -> g2 ++ m ++ rest = w ++ t ->
        ~ lang r w) ->
    (forall w t, m ++ rest = w ++ t -> lang r w ->
                 (length m <= length w)%nat) ->
    occurrences r rest ms ->
    occurrences r (gap ++ m ++ rest) (m :: ms).

(** A continuation whose success does not depend on the capture. *)
Definition blind (k : cont) : Prop :=
  forall s g1 g2, is_Some (k s g1) -> is_Some (k s g2).

(** The matcher selects the shortest word of the pattern at each place. *)
Definition shortest_first (r : re) : Prop :=
  forall s n item w t,
    match_here is_decimal r s = Some (n, item) ->
    s = w ++ t -> lang r w -> (n <= length w)%nat.

(** Which word a pattern takes where several of its words start at the
    same place: a lazy run ([.*?]) gives the shortest, a greedy run ([.*])
    the longest. *)
Inductive selection := Shortest | Longest.

Definition prefers (sel : selection) (n k : nat) : Prop :=
  match sel with
  | Shortest => (n <= k)%nat
  | Longest => (k <= n)%nat
  end.

(** The non-overlapping occurrences of a pattern in a text, read from left
    to right: each one starts at the first place after the previous one
    where a word of the pattern starts, and among the words that start
    there it is the one the selection names. *)
Inductive occurrences_by (sel : selection) (r : re)
  : pystr -> list pystr -> Prop :=
| occ_by_none s : ~ occurs r s -> occurrences_by sel r s []
| occ_by_next gap m rest ms :
    lang r m ->
    (forall g1 g2 w t,
        gap = g1 ++ g2 -> g2 <> [] -> g2 ++ m ++ rest = w ++ t ->
        ~ lang r w) ->
    (forall w t, m ++ rest = w ++ t -> lang r w ->
                 prefers sel (length m) (length w)) ->
    occurrences_by sel r rest ms ->
    occurrences_by sel r (gap ++ m ++ rest) (m :: ms).

(** The matcher takes the word the selection names at each place. *)
Definition selects (sel : selection) (r : re) : Prop :=
  forall s n item w t,
    match_here is_decimal r s = Some (n, item) ->
    s = w ++ t -> lang r w -> prefers sel n (length w).

End Language.

(** No class of the pattern accepts the line feed. *)
Fixpoint nl_free (is_decimal : N -> bool) (r : re) : bool :=
  match r with
  | Eps => true
  | One cs | Star _ cs => negb (cset_mem is_decimal cs 10)
  | Seq r1 r2 | Alt r1 r2 => nl_free is_decimal r1 && nl_free is_decimal r2
  | Group r1 => nl_free is_decimal r1
  end.

(** The pattern can match the empty string. *)
Fixpoint nullable (r : re) : bool :=
  match r with
  | Eps | Star _ _ => true
  | One _ => false
  | Seq r1 r2 => nullable r1 && nullable r2
  | Alt r1 r2 => nullable r1 || nullable r2
  | Group r1 => nullable r1
  end.

(** The lines of a text: the runs between line feeds. *)
Fixpoint lines_of (s : pystr) : list pystr :=
  match s with
  | [] => [[]]
  | c :: t =>
    if c =? 10 then [] :: lines_of t
    else match lines_of t with
         | l :: ls => (c :: l) :: ls
         | [] => [[c]]
         end
  end.

(** [m] is a piece of one line of [s]. *)
Definition within_one_line (s m : pystr) : Prop :=
  exists l a b, In l (lines_of s) /\ l = a ++ m ++ b.

(** ** What each step prints, read off the specification *)

(** The world after some more texts have been printed. *)
Definition printed (w : world) (out : list pystr) : world :=
  {| fs := fs w; stdout := stdout w ++ out |}.

(** An indented list item. *)
Definition bullet (m : pystr) : pystr := u "   - " ++ m.

(** The report line of one expected file: present with its size, or
    absent. *)
Definition artifact_line (fsys : gmap pystr node) (file : pystr) : pystr :=
  match fsys !! path_text (mkPath base_dir file) with
  | Some n =>
    u "✅ " ++ file ++ u ": 存在 (" ++ fmt_thousands (st_size n) ++ u " 字节)"
  | None => u "❌ " ++ file ++ u ": 不存在"
  end.

(** The entries the listing enumerates. *)
Definition listed (fsys : gmap pystr node) : list pystr :=
  match fsys !! path_text output_dir with
  | Some (Dir _ entries) => entries
  | _ => []
  end.

(** The head line of the listing for a given number of entries. *)
Definition listing_head (count : N) : pystr :=
  u "✅ OUTPUT目录: 存在 (" ++ str_of_N count ++ u " 个文件)".

(** The lines of the listing step when it gets through. *)
Definition listing_lines (fsys : gmap pystr node) : list pystr :=
  match fsys !! path_text output_dir with
  | Some _ =>
    listing_head (N.of_nat (length (listed fsys))) :: map bullet (listed fsys)
  | None => [u "❌ OUTPUT目录: 不存在"]
  end.

(** The entries whose lines get printed: those before the first name that
    the console cannot encode. *)
Fixpoint printable (names : list pystr) : list pystr :=
  match names with
  | [] => []
  | e :: rest => if encodable e then e :: printable rest else []
  end.

(** How the listing step ends and what it prints: the loop over the entries
    stops with [UnicodeEncodeError] at the first name that cannot be
    encoded. *)
Definition listing_outcome (fsys : gmap pystr node)
  : result unit * list pystr :=
  match fsys !! path_text output_dir with
  | Some _ =>
    (if forallb encodable (listed fsys)
     then Ok tt else Raise UnicodeEncodeError,
     listing_head (N.of_nat (length (listed fsys)))
     :: map bullet (printable (listed fsys)))
  | None => (Ok tt, [u "❌ OUTPUT目录: 不存在"])
  end.

(** Every entry name of the output directory can be encoded for the
    console. *)
Definition names_encodable (fsys : gmap pystr node) : Prop :=
  Forall (fun e => encodable e = true) (listed fsys).

(** The line for a category with matches. *)
Definition found_line (label : pystr) (count : N) : pystr :=
  u "✅ " ++ label ++ u ": 找到 " ++ str_of_N count ++ u " 条记录".

(** The line for a category without matches. *)
Definition not_found_line (label : pystr) : pystr :=
  u "❌ " ++ label ++ u ": 未找到相关记录".

(** The heading of the residential addresses. *)
Definition ip_heading : pystr := nl ++ u "🏠 发现的住宅IP示例:".

(** The heading of the log analysis. *)
Definition analysis_heading : pystr := nl ++ u "=== 日志分析 ===".

(** The one line printed when there is no log. *)
Definition no_log_line : pystr := u "❌ 日志文件不存在".

(** The first line of the run. *)
Definition banner : pystr := u "=== IP检测工具问题诊断 ===" ++ nl.

Section Reports.

Variable is_decimal : N -> bool.

(** The matches shown for one category: the first three. *)
Definition shown (content : pystr) (pattern : re) : list pystr :=
  take 3 (findall is_decimal pattern content).

(** The addresses shown: the first five. *)
Definition shown_ips (content : pystr) : list pystr :=
  take 5 (findall is_decimal pat_ip content).

(** The lines of one category. *)
Definition pattern_block (content : pystr) (row : pystr * re) : list pystr :=
  match findall is_decimal (snd row) content with
  | [] => [not_found_line (fst row)]
  | ms => found_line (fst row) (N.of_nat (length ms))
          :: map bullet (shown content (snd row))
  end.

(** The lines of the address search. *)
Definition ip_block (content : pystr) : list pystr :=
  match findall is_decimal pat_ip content with
  | [] => []
  | _ => ip_heading :: map bullet (shown_ips content)
  end.

(** Every matched text the analysis displays. *)
Definition reported (content : pystr) : list pystr :=
  concat (map (fun row => shown content (snd row)) patterns)
  ++ shown_ips content.

(** The lines of the analysis of a log that could be read. *)
Definition analysis_lines (content : pystr) : list pystr :=
  analysis_heading
  :: concat (map (pattern_block content) patterns) ++ ip_block content.

(** How the analysis step ends and what it prints, by what the path of
    the log leads to. *)
Definition analysis_outcome (fsys : gmap pystr node)
  : result unit * list pystr :=
  match fsys !! path_text log_file with
  | None => (Ok tt, [no_log_line])
  | Some (Dir _ _) => (Raise IsADirectoryError, [])
  | Some (File data) =>
    match Utf8.decode (map Byte.to_N data) with
    | Some s => (Ok tt, analysis_lines (universal_newlines s))
    | None => (Raise UnicodeDecodeError, [])
    end
  end.

(** How the run ends and what it prints: an exception of the listing or
    of the analysis ends the run, and only a run that gets through both
    prints the hints. *)
Definition run_outcome (fsys : gmap pystr node) : result unit * list pystr :=
  let head := banner :: map (artifact_line fsys) files_to_check
              ++ snd (listing_outcome fsys) in
  match fst (listing_outcome fsys) with
  | Raise e => (Raise e, head)
  | Ok _ =>
    match fst (analysis_outcome fsys) with
    | Ok _ => (Ok tt, head ++ snd (analysis_outcome fsys) ++ hints)
    | Raise e => (Raise e, head ++ snd (analysis_outcome fsys))
    end
  end.

End Reports.

(** The text of the log as [read] returns it, when the log is a regular
    file that holds valid UTF-8. *)
Definition log_text (fsys : gmap pystr node) : option pystr :=
  match fsys !! path_text log_file with
  | Some (File data) =>
    universal_newlines <$> Utf8.decode (map Byte.to_N data)
  | _ => None
  end.


(** What the pattern of each row of the table selects: the first three
    hold a lazy run, the last two a greedy one. *)
Definition row_selection : list selection :=
  [Shortest; Shortest; Shortest; Longest; Longest].

(** Reading a decimal numeral back. *)
Definition digit_value (c : N) : option N :=
  if (48 <=? c) && (c <=? 57) then Some (c - 48) else None.

Fixpoint value_from (acc : N) (s : pystr) : option N :=
  match s with
  | [] => Some acc
  | c :: t =>
    match digit_value c with
    | Some d => value_from (10 * acc + d) t
    | None => None
    end
  end.

Definition value_of (s : pystr) : option N :=
  match s with
  | [] => None
  | _ => value_from 0 s
  end.

(** A numeral with thousands separators: one to three digits, then groups
    of a comma and three digits.  The first component is the numeral
    without the separators. *)
Inductive grouped : pystr -> pystr -> Prop :=
| grouped_head ds :
    (1 <= length ds <= 3)%nat -> grouped ds ds
| grouped_more ds out a b c :
    grouped ds out -> grouped (ds ++ [a; b; c]) (out ++ [44; a; b; c]).

(** Two file systems with the same files and directories, where the
    entries of a directory may be enumerated in a different order. *)
Definition same_node (n1 n2 : option node) : Prop :=
  match n1, n2 with
  | None, None => True
  | Some (File d1), Some (File d2) => d1 = d2
  | Some (Dir z1 e1), Some (Dir z2 e2) => z1 = z2 /\ e1 ≡ₚ e2
  | _, _ => False
  end.

Definition same_up_to_order (f1 f2 : gmap pystr node) : Prop :=
  forall p, same_node (f1 !! p) (f2 !! p).

(** The texts [ms] lie in [s] one after the other, without overlap. *)
Inductive pieces_in_order : pystr -> list pystr -> Prop :=
| pieces_nil s : pieces_in_order s []
| pieces_cons a m b ms :
    pieces_in_order b ms -> pieces_in_order (a ++ m ++ b) (m :: ms).

(** The text does not begin with a decimal digit. *)
Definition no_digit_ahead (is_decimal : N -> bool) (s : pystr) : Prop :=
  match s with
  | c :: _ => is_decimal c = false
  | [] => True
  end.

(** The code point of the house that opens the address marker. *)
Definition house : N := 127968.

(** [p] lies somewhere in [s], as a test. *)
Fixpoint contains (p s : pystr) {struct s} : bool :=
  bool_decide (take (length p) s = p)
  || match s with
     | [] => false
     | _ :: t => contains p t
     end.

(** The marker in front of an address, the literal with which the sixth
    pattern starts. *)
Definition ip_marker : pystr := u "🏠 住宅IP".

(** Four runs of digits joined by full stops. *)
Definition dotted_quad (a b c d : pystr) : pystr :=
  a ++ 46 :: b ++ 46 :: c ++ 46 :: d.

(** What the address claims need of [\d]: on ASCII it accepts the ten
    digits and nothing else, and it does not accept the house. *)
Definition sound_digits (is_decimal : N -> bool) : Prop :=
  (forall c, c < 128 -> is_decimal c = ascii_digit c)
  /\ is_decimal house = false.

(** ** Notions for the further properties *)

(** A Unicode scalar value: a code point up to U+10FFFF that is not a
    surrogate. *)
Definition scalar_value (c : N) : Prop :=
  c < 0x110000 /\ ~ (0xD800 <= c <= 0xDFFF).

(** The code points with which the six patterns start: the house, the
    disk, the bin, [G], [数] and [国]. *)
Definition pattern_starts : list N :=
  [127968; 128190; 128465; 71; 25968; 22269].

(** [m] is [p], then a text [x] without line feed in which [q] does not
    start early, then [q]: the closing phrase [q] is met only at the end. *)
Definition bracketed (p q m : pystr) : Prop :=
  exists x,
    m = p ++ x ++ q
    /\ Forall (fun c => c <> 10) x
    /\ forall i, (i < length x)%nat ->
                 take (length q) (drop i (x ++ q)) <> q.

(** A run of decimal digits that is not empty. *)
Definition digit_run (is_decimal : N -> bool) (a : pystr) : Prop :=
  a <> [] /\ Forall (fun c => is_decimal c = true) a.

(** Every word of the pattern ends with [q]. *)
Definition closes_with (is_decimal : N -> bool) (q : pystr) (r : re)
  : Prop :=
  forall w, lang is_decimal r w -> exists v, w = v ++ q.

(** After a match of the pattern the phrase [q] does not come again on the
    same line. *)
Definition last_on_line (is_decimal : N -> bool) (q : pystr) (r : re)
  : Prop :=
  forall s n item mid t,
    match_here is_decimal r s = Some (n, item) ->
    drop n s = mid ++ q ++ t ->
    ~ Forall (fun c => c <> 10) mid.

(** ** Worlds for the concrete checks *)

(** No file at all. *)
Definition empty_world : world := World ∅ [].


(** An output directory with three entries. *)
Definition listing_world : world :=
  World {[ path_text output_dir :=
             Dir 4096 [u "residential.txt"; u "全部.txt"; u "tmp"] ]} [].

(** The same directory, enumerated in another order. *)
Definition listing_world' : world :=
  World {[ path_text output_dir :=
             Dir 4096 [u "tmp"; u "residential.txt"; u "全部.txt"] ]} [].

(** The name of a file whose bytes [ff 2e 74 78 74] are not valid UTF-8:
    the interpreter hands the byte [ff] to the script as the lone
    surrogate [U+DCFF]. *)
Definition undecodable_name : pystr := 0xDCFF :: u ".txt".

(** An output directory that holds such a file between two others. *)
Definition odd_name_world : world :=
  World {[ path_text output_dir :=
             Dir 4096 [u "a.txt"; undecodable_name; u "b.txt"] ]} [].

(** The same directory, enumerated with that file first. *)
Definition odd_name_world' : world :=
  World {[ path_text output_dir :=
             Dir 4096 [undecodable_name; u "a.txt"; u "b.txt"] ]} [].

(** A regular file where the output directory is expected. *)
Definition output_file_world : world :=
  World {[ path_text output_dir :=
             File (String.list_byte_of_string "not a directory") ]} [].

(** A log in plain ASCII with the line ends of Windows. *)
Definition ascii_log_world : world :=
  World {[ path_text log_file :=
             File [Byte.x6f; Byte.x6b; Byte.x0d; Byte.x0a; Byte.x62] ]} [].

(** A log that can be read. *)
Definition plain_log_world : world :=
  World {[ path_text log_file :=
             File (String.list_byte_of_string "GeoIP 数据库未加载") ]} [].

(** A world for trying the script: two of the three files, an output
    directory with two entries and a short log. *)
Definition demo_fs : gmap pystr node :=
  <[ u "D:/IP/IP检测/IP-validity/config.ini" :=
       File (String.list_byte_of_string "[a]") ]>
  (<[ u "D:/IP/IP检测/IP-validity/GeoLite2-Country.mmdb" :=
       Dir 4096 [] ]>
  (<[ u "D:/IP/IP检测/IP-validity/OUTPUT" :=
       Dir 0 [u "b.txt"; u "a.txt"] ]>
  (<[ u "D:/IP/IP检测/IP-validity/check_log.txt" :=
       File (String.list_byte_of_string
               "💾 已写入 5 个住宅IP 🏠 住宅IP: 203.0.113.7") ]> ∅))).

(** * Checks on concrete inputs *)

Example u_house : u "🏠 发现" = [127968; 32; 21457; 29616].
Proof. reflexivity. Qed.

Example u_bin : u "🗑️ 已删除" = [128465; 65039; 32; 24050; 21024; 38500].
Proof. reflexivity. Qed.

Example decode_rejects_ff : Utf8.decode [0xFF] = None.
Proof. reflexivity. Qed.

Example decode_rejects_surrogate : Utf8.decode [0xED; 0xA0; 0x80] = None.
Proof. reflexivity. Qed.

Example decode_rejects_overlong : Utf8.decode [0xC0; 0x80] = None.
Proof. reflexivity. Qed.

Example fmt_thousands_small : fmt_thousands 999 = u "999".
Proof. reflexivity. Qed.

Example fmt_thousands_big : fmt_thousands 1234567 = u "1,234,567".
Proof. reflexivity. Qed.

Example fmt_thousands_zero : fmt_thousands 0 = u "0".
Proof. reflexivity. Qed.

Example fmt_thousands_exact : fmt_thousands 100000 = u "100,000".
Proof. reflexivity. Qed.

Example findall_written :
  findall ascii_digit pat_written
    (u "a 💾 已写入 5 个住宅IP到文件" ++ nl ++ u "💾 已写入" ++ nl
     ++ u " 7 个住宅IP" ++ nl ++ u "💾 已写入 12 个住宅IP 个住宅IP")
  = [u "💾 已写入 5 个住宅IP"; u "💾 已写入 12 个住宅IP"].
Proof. vm_compute. reflexivity. Qed.

Example findall_geoip :
  findall ascii_digit pat_geoip
    (u "GeoIP 未加载, 数据库未加载" ++ nl ++ u "数据库 x 未加载 y" ++ nl
     ++ u "GeoIP" ++ nl ++ u "未加载")
  = [u "GeoIP 未加载, 数据库未加载"; u "数据库 x 未加载"].
Proof. vm_compute. reflexivity. Qed.

Example findall_ip :
  findall ascii_digit pat_ip
    (u "🏠 住宅IP: 203.0.113.7" ++ nl ++ u "xx 🏠 住宅IP [US] 198.51.100.9 ok"
     ++ nl ++ u "🏠 住宅IP 1.2.3" ++ nl ++ u "4.5.6.7")
  = [u "203.0.113.7"; u "198.51.100.9"].
Proof. vm_compute. reflexivity. Qed.

Example demo_run :
  diagnose_issues ascii_digit (World demo_fs [])
  = (Ok tt,
     World demo_fs
       ([ u "=== IP检测工具问题诊断 ===" ++ nl;
          u "❌ ip-checker-debug.exe: 不存在";
          u "✅ GeoLite2-Country.mmdb: 存在 (4,096 字节)";
          u "✅ config.ini: 存在 (3 字节)";
          u "✅ OUTPUT目录: 存在 (2 个文件)";
          u "   - b.txt";
          u "   - a.txt";
          nl ++ u "=== 日志分析 ===";
          u "❌ 住宅IP发现: 未找到相关记录";
          u "✅ 文件写入: 找到 1 条记录";
          u "   - 💾 已写入 5 个住宅IP";
          u "❌ 文件删除: 未找到相关记录";
          u "❌ GeoIP错误: 未找到相关记录";
          u "❌ 国家代码: 未找到相关记录";
          nl ++ u "🏠 发现的住宅IP示例:";
          u "   - 203.0.113.7" ] ++ hints)).
Proof. vm_compute. reflexivity. Qed.

Example print_rejects_surrogate :
  print (bullet undecodable_name) empty_world
  = (Raise UnicodeEncodeError, empty_world).
Proof. reflexivity. Qed.

Example listing_with_undecodable_name_first :
  list_output odd_name_world'
  = (Raise UnicodeEncodeError, printed odd_name_world' [listing_head 3]).
Proof. vm_compute. reflexivity. Qed.

(** * The matcher against the language of the pattern *)

Section EngineFacts.

Variable is_decimal : N -> bool.

Local Abbreviation mem := (cset_mem is_decimal).
Local Abbreviation accepted cs := (Forall (fun c => mem cs c = true)).

Lemma star_greedy_sound cs s k x :
  star_greedy is_decimal cs s k = Some x ->
  exists w s', s = w ++ s' /\ accepted cs w /\ k s' = Some x.
Proof.
  revert x. induction s as [|c s IH]; intros x H; simpl in H.
  - exists [], []. auto.
  - destruct (mem cs c) eqn:E; [|exists [], (c :: s); auto].
    destruct (star_greedy is_decimal cs s k) eqn:E2.
    + inversion H; subst.
      destruct (IH _ eq_refl) as (w & s' & -> & Hw & Hk).
      exists (c :: w), s'. auto.
    + exists [], (c :: s). auto.
Qed.

Lemma star_lazy_unfold cs s k :
  star_lazy is_decimal cs s k =
  match k s with
  | Some x => Some x
  | None =>
    match s with
    | c :: s' => if mem cs c then star_lazy is_decimal cs s' k else None
    | [] => None
    end
  end.
Proof. destruct s; reflexivity. Qed.

(** A lazy repetition stops at the first place where the rest of the
    pattern succeeds. *)
Lemma star_lazy_sound cs s k x :
  star_lazy is_decimal cs s k = Some x ->
  exists w s', s = w ++ s' /\ accepted cs w /\ k s' = Some x /\
    forall i, (i < length w)%nat -> k (drop i s) = None.
Proof.
  revert x. induction s as [|c s IH]; intros x H;
    rewrite star_lazy_unfold in H.
  - destruct (k []) eqn:E; [|discriminate].
    exists [], []. split; [reflexivity|]. split; [constructor|].
    split; [congruence|]. intros i Hi. simpl in Hi. lia.
  - destruct (k (c :: s)) eqn:E.
    + exists [], (c :: s). split; [reflexivity|]. split; [constructor|].
      split; [congruence|]. intros i Hi. simpl in Hi. lia.
    + destruct (mem cs c) eqn:Ec; [|discriminate].
      destruct (IH _ H) as (w & s' & -> & Hw & Hk & Hmin).
      exists (c :: w), s'. split; [reflexivity|]. split; [by constructor|].
      split; [assumption|].
      intros [|i] Hi; simpl in *; [assumption|]. apply Hmin. lia.
Qed.

Lemma star_greedy_base cs s k :
  is_Some (k s) -> is_Some (star_greedy is_decimal cs s k).
Proof.
  intros Hk. destruct s as [|c s]; simpl; [assumption|].
  destruct (mem cs c); [|assumption].
  destruct (star_greedy is_decimal cs s k); [eauto|assumption].
Qed.

Lemma star_greedy_complete cs w s' k :
  accepted cs w -> is_Some (k s') ->
  is_Some (star_greedy is_decimal cs (w ++ s') k).
Proof.
  intros Hw Hk. induction Hw as [|c w Hc Hw IH]; simpl.
  - by apply star_greedy_base.
  - rewrite Hc. destruct IH as [y ->]. eauto.
Qed.

Lemma star_lazy_complete cs w s' k :
  accepted cs w -> is_Some (k s') ->
  is_Some (star_lazy is_decimal cs (w ++ s') k).
Proof.
  intros Hw Hk. induction Hw as [|c w Hc Hw IH];
    rewrite star_lazy_unfold; simpl.
  - destruct Hk as [y ->]. eauto.
  - destruct (k (c :: w ++ s')); [eauto|]. by rewrite Hc.
Qed.

(** The matcher only finds words of the language; a capture it sets is a
    piece of the word and a word of the group. *)
Lemma mt_sound r : forall s g k x,
  mt is_decimal r s g k = Some x ->
  exists w s' g',
    s = w ++ s' /\ lang is_decimal r w /\ k s' g' = Some x /\
    (g' = g \/ exists c, g' = Some c /\ captures is_decimal r c
                         /\ substring c w).
Proof.
  induction r as [|cs|b cs|r1 IH1 r2 IH2|r1 IH1 r2 IH2|r1 IH1];
    intros s g k x H; simpl in H.
  - exists [], s, g. repeat split; auto. constructor.
  - destruct s as [|c s]; [discriminate|].
    destruct (mem cs c) eqn:E; [|discriminate].
    exists [c], s, g. repeat split; auto. by constructor.
  - destruct b.
    + apply star_greedy_sound in H as (w & s' & -> & Hw & Hk).
      exists w, s', g. repeat split; auto. by constructor.
    + apply star_lazy_sound in H as (w & s' & -> & Hw & Hk & _).
      exists w, s', g. repeat split; auto. by constructor.
  - apply IH1 in H as (w1 & s1 & g1 & -> & L1 & H & C1).
    apply IH2 in H as (w2 & s2 & g2 & -> & L2 & H & C2).
    exists (w1 ++ w2), s2, g2. rewrite <- app_assoc.
    repeat split; auto; [by constructor|].
    destruct C2 as [->|(c & -> & Hc & (a & b & ->))].
    + destruct C1 as [->|(c & -> & Hc & (a & b & ->))]; [by left|].
      right. exists c. repeat split; simpl; auto.
      exists a, (b ++ w2). by rewrite <- !app_assoc.
    + right. exists c. repeat split; simpl; auto.
      exists (w1 ++ a), b. by rewrite <- !app_assoc.
  - destruct (mt is_decimal r1 s g k) eqn:E.
    + inversion H; subst.
      apply IH1 in E as (w & s' & g' & -> & L & Hk & C).
      exists w, s', g'. repeat split; auto; [by apply lang_alt_l|].
      destruct C as [->|(c & -> & Hc & Hs)]; [by left|].
      right. exists c. simpl. auto.
    + apply IH2 in H as (w & s' & g' & -> & L & Hk & C).
      exists w, s', g'. repeat split; auto; [by apply lang_alt_r|].
      destruct C as [->|(c & -> & Hc & Hs)]; [by left|].
      right. exists c. simpl. auto.
  - apply IH1 in H as (w & s' & g' & -> & L & Hk & _).
    rewrite length_app, Nat.add_sub, take_app_length in Hk.
    exists w, s', (Some w). repeat split; auto; [by constructor|].
    right. exists w. repeat split; simpl; auto. exists [], []. simpl.
    by rewrite app_nil_r.
Qed.

Lemma star_greedy_mono cs s (k1 k2 : pystr -> option outcome) :
  (forall t, is_Some (k1 t) -> is_Some (k2 t)) ->
  is_Some (star_greedy is_decimal cs s k1) ->
  is_Some (star_greedy is_decimal cs s k2).
Proof.
  intros Hk [x Hx]. apply star_greedy_sound in Hx as (w & s' & -> & Hw & H1).
  apply star_greedy_complete; eauto.
Qed.

Lemma star_lazy_mono cs s (k1 k2 : pystr -> option outcome) :
  (forall t, is_Some (k1 t) -> is_Some (k2 t)) ->
  is_Some (star_lazy is_decimal cs s k1) ->
  is_Some (star_lazy is_decimal cs s k2).
Proof.
  intros Hk [x Hx].
  apply star_lazy_sound in Hx as (w & s' & -> & Hw & H1 & _).
  apply star_lazy_complete; eauto.
Qed.

Lemma mt_blind r : forall s g1 g2 k,
  blind k ->
  is_Some (mt is_decimal r s g1 k) -> is_Some (mt is_decimal r s g2 k).
Proof.
  induction r as [|cs|b cs|r1 IH1 r2 IH2|r1 IH1 r2 IH2|r1 IH1];
    intros s g1 g2 k Hk H; simpl in *.
  - eauto.
  - destruct s as [|c s]; [assumption|]. destruct (mem cs c); eauto.
  - destruct b;
      [apply (star_greedy_mono _ _ (fun s' => k s' g1))
      |apply (star_lazy_mono _ _ (fun s' => k s' g1))];
      auto; intros t; apply Hk.
  - eapply IH1; [|exact H]. intros t h1 h2. by apply IH2.
  - destruct (mt is_decimal r1 s g1 k) eqn:E1.
    + destruct (IH1 s g1 g2 k Hk) as [y ->]; eauto.
    + destruct (mt is_decimal r1 s g2 k); [eauto|]. eapply IH2; eauto.
  - eapply IH1; [|exact H]. intros t h1 h2. auto.
Qed.

(** The matcher finds a match wherever a word of the language starts. *)
Lemma mt_complete r w :
  lang is_decimal r w ->
  forall s' g k, blind k -> is_Some (k s' g) ->
                 is_Some (mt is_decimal r (w ++ s') g k).
Proof.
  induction 1 as [|cs c Hc|b cs w Hw|r1 r2 w1 w2 _ IH1 _ IH2
                  |r1 r2 w _ IH|r1 r2 w _ IH|r w _ IH];
    intros s' g k Hb Hk; simpl.
  - assumption.
  - by rewrite Hc.
  - destruct b; [apply star_greedy_complete|apply star_lazy_complete]; auto.
  - rewrite <- app_assoc. apply IH1.
    + intros t h1 h2. by apply mt_blind.
    + by apply IH2.
  - destruct (IH s' g k Hb Hk) as [y ->]. eauto.
  - destruct (mt is_decimal r1 (w ++ s') g k); [eauto|]. by apply IH.
  - apply IH; [intros t h1 h2; auto|]. eapply Hb, Hk.
Qed.

Lemma match_here_sound r s n item :
  match_here is_decimal r s = Some (n, item) ->
  exists w t,
    s = w ++ t /\ n = length w /\ lang is_decimal r w /\
    (has_group r = false -> item = w) /\
    (has_group r = true ->
     item = [] \/ (captures is_decimal r item /\ substring item w)).
Proof.
  unfold match_here. intros H.
  destruct (mt is_decimal r s None _) as [[s' g]|] eqn:E; [|discriminate].
  apply mt_sound in E as (w & t & g' & -> & L & Hk & C).
  inversion Hk; subst t g'; clear Hk.
  rewrite length_app, Nat.add_sub, take_app_length in H.
  inversion H; subst n item; clear H.
  exists w, s'. repeat split; auto.
  - intros ->. reflexivity.
  - intros ->. destruct C as [->|(c & -> & Hc & Hs)]; simpl; auto.
Qed.

Lemma match_here_complete r w t :
  lang is_decimal r w -> is_Some (match_here is_decimal r (w ++ t)).
Proof.
  intros L. unfold match_here.
  destruct (mt_complete r w L t None (fun s' g => Some (s', g)))
    as [[s' g] ->]; eauto.
  intros s g1 g2 _. eauto.
Qed.

Lemma match_here_none r s w t :
  match_here is_decimal r s = None -> s = w ++ t -> ~ lang is_decimal r w.
Proof.
  intros H -> L. destruct (match_here_complete r w t L) as [y Hy].
  congruence.
Qed.

Lemma lang_nullable r w :
  lang is_decimal r w -> w = [] -> nullable r = true.
Proof.
  induction 1 as [|cs c Hc|b cs w Hw|r1 r2 w1 w2 _ IH1 _ IH2
                  |r1 r2 w _ IH|r1 r2 w _ IH|r w _ IH];
    intros E; simpl; auto.
  - discriminate.
  - apply app_eq_nil in E as [-> ->]. by rewrite IH1, IH2.
  - by rewrite IH.
  - rewrite IH by done. by destruct (nullable r1).
Qed.

(** *** The scan *)

Lemma scan_skip r a b : scan is_decimal r (a ++ b) (length a)
                        = scan is_decimal r b 0.
Proof.
  induction a as [|c a IH]; simpl; [|exact IH].
  destruct b; reflexivity.
Qed.

Lemma scan_hit r w t item :
  w <> [] ->
  match_here is_decimal r (w ++ t) = Some (length w, item) ->
  scan is_decimal r (w ++ t) 0 = item :: scan is_decimal r t 0.
Proof.
  intros Hw H. destruct w as [|c w]; [done|].
  simpl in *. rewrite H. simpl. by rewrite Nat.sub_0_r, scan_skip.
Qed.

Lemma scan_miss r c s :
  match_here is_decimal r (c :: s) = None ->
  scan is_decimal r (c :: s) 0 = scan is_decimal r s 0.
Proof. intros H. simpl. by rewrite H. Qed.

Lemma occurs_cons r c s :
  occurs is_decimal r (c :: s) ->
  (exists w t, c :: s = w ++ t /\ lang is_decimal r w)
  \/ occurs is_decimal r s.
Proof.
  intros (w & (a & b & E) & L). destruct a as [|c' a]; simpl in E.
  - left. eauto.
  - right. inversion E; subst. exists w. split; [|done]. by exists a, b.
Qed.

Lemma occurs_tail r c s :
  occurs is_decimal r s -> occurs is_decimal r (c :: s).
Proof.
  intros (w & (a & b & ->) & L). exists w. split; [|done].
  by exists (c :: a), b.
Qed.

(** Without an occurrence the scan finds nothing. *)
Lemma scan_no_occurrence r s :
  ~ occurs is_decimal r s -> scan is_decimal r s 0 = [].
Proof.
  induction s as [|c s IH]; intros H; [reflexivity|].
  destruct (match_here is_decimal r (c :: s)) as [[n item]|] eqn:E.
  - exfalso. apply H.
    apply match_here_sound in E as (w & t & E & _ & L & _).
    exists w. split; [|done]. exists [], t. by rewrite E.
  - rewrite scan_miss by done. apply IH. intros Ho. by apply H, occurs_tail.
Qed.

(** With an occurrence the scan finds something. *)
Lemma scan_occurrence r s :
  nullable r = false ->
  occurs is_decimal r s -> scan is_decimal r s 0 <> [].
Proof.
  intros Hn (w & (a & b & ->) & L).
  induction a as [|c a IH]; simpl app.
  - destruct w as [|c w].
    { apply lang_nullable in L; [congruence|done]. }
    destruct (match_here_complete r (c :: w) b L) as [[n item] E].
    simpl in *. by rewrite E.
  - destruct (match_here is_decimal r (c :: a ++ w ++ b)) as [[n item]|] eqn:E.
    + simpl. by rewrite E.
    + by rewrite scan_miss.
Qed.

(** The scan finds nothing exactly when the pattern does not occur. *)
Lemma findall_nil_iff r s :
  nullable r = false ->
  findall is_decimal r s = [] <-> ~ occurs is_decimal r s.
Proof.
  intros Hn. unfold findall. split.
  - intros E Ho. by apply (scan_occurrence r s).
  - apply scan_no_occurrence.
Qed.

(** *** Literals and lazy patterns *)

Lemma mt_lit_app p t g k : mt is_decimal (Lit p) (p ++ t) g k = k t g.
Proof.
  induction p as [|c p IH]; simpl; [reflexivity|].
  rewrite N.eqb_refl. apply IH.
Qed.

Lemma mt_lit_sound p : forall s g k x,
  mt is_decimal (Lit p) s g k = Some x ->
  exists t, s = p ++ t /\ k t g = Some x.
Proof.
  induction p as [|c p IH]; intros s g k x H; simpl in H.
  - by exists s.
  - destruct s as [|c' s]; [discriminate|].
    destruct (c' =? c) eqn:E; [|discriminate].
    apply N.eqb_eq in E as ->.
    apply IH in H as (t & -> & Hk). by exists t.
Qed.

Lemma lang_lit p : forall w, lang is_decimal (Lit p) w -> w = p.
Proof.
  induction p as [|c p IH]; intros w L; simpl in L.
  - by inversion L.
  - inversion L as [| | |r1 r2 w1 w2 L1 L2| | |]; subst.
    inversion L1 as [|cs c' Hc| | | | |]; subst. simpl in Hc.
    apply N.eqb_eq in Hc as ->. simpl. f_equal. by apply IH.
Qed.

Lemma lang_lit_intro p : lang is_decimal (Lit p) p.
Proof.
  induction p as [|c p IH]; simpl; [constructor|].
  apply (lang_seq _ _ _ [c] p); [|exact IH].
  constructor. simpl. apply N.eqb_refl.
Qed.

(** A literal, a lazy run, a literal: the match found is the shortest. *)
Lemma lazy_shortest p cs q :
  shortest_first is_decimal (Lit p · Star false cs · Lit q)%re.
Proof.
  intros s n item w t H -> L. unfold match_here in H. simpl in H.
  destruct (mt is_decimal (Lit p) _ _ _) as [[s' g]|] eqn:E; [|discriminate].
  inversion H; subst n item; clear H.
  apply mt_lit_sound in E as (s1 & Es & E).
  apply star_lazy_sound in E as (d & s2 & -> & _ & E & Hmin).
  apply mt_lit_sound in E as (s3 & -> & E). inversion E; subst s' g; clear E.
  inversion L as [| | |r1 r2 w12 w3 L12 L3| | |]; subst.
  inversion L12 as [| | |r1 r2 w1 w2 L1 L2| | |]; subst.
  apply lang_lit in L1 as ->. apply lang_lit in L3 as ->.
  rewrite <- !app_assoc in Es. apply app_inv_head in Es.
  pose proof (f_equal length Es) as Hl.
  rewrite <- !app_assoc, !length_app. rewrite !length_app in Hl.
  destruct (decide (length w2 < length d)%nat) as [Hlt|]; [|lia].
  specialize (Hmin _ Hlt).
  rewrite <- Es, drop_app_length, mt_lit_app in Hmin. discriminate.
Qed.

(** *** The scan against the occurrences *)

Section Occurrences.

Variable r : re.
Hypothesis r_not_nullable : nullable r = false.
Hypothesis r_no_group : has_group r = false.
Hypothesis r_shortest : shortest_first is_decimal r.

Lemma lang_nonempty w : lang is_decimal r w -> w <> [].
Proof.
  intros L ->. apply lang_nullable in L; [congruence|done].
Qed.

Lemma occurrences_skip c s ms :
  match_here is_decimal r (c :: s) = None ->
  occurrences is_decimal r s ms -> occurrences is_decimal r (c :: s) ms.
Proof.
  intros Hnone H. inversion H as [s0 Hno|gap m rest ms' L Hleft Hshort Hrest];
    subst.
  - apply occ_none. intros Ho.
    apply occurs_cons in Ho as [(w & t & E & L)|Ho]; [|done].
    by apply (match_here_none r _ w t Hnone).
  - change (c :: gap ++ m ++ rest) with ((c :: gap) ++ m ++ rest).
    apply occ_next; auto.
    intros [|c' g1] g2 w t E Hg2 E2; simpl in E.
    + subst g2. simpl in E2. by apply (match_here_none r _ w t Hnone).
    + inversion E; subst. by apply (Hleft g1 g2 w t).
Qed.

Lemma scan_occurrences_aux n : forall s,
  (length s <= n)%nat ->
  occurrences is_decimal r s (scan is_decimal r s 0).
Proof.
  assert (Hnil : occurrences is_decimal r [] []).
  { apply occ_none. intros (w & (a & b & E) & L).
    symmetry in E. apply app_eq_nil in E as [_ E].
    apply app_eq_nil in E as [-> _]. by apply (lang_nonempty []). }
  induction n as [|n IH]; intros s Hlen.
  - destruct s; [exact Hnil|simpl in Hlen; lia].
  - destruct s as [|c s]; [exact Hnil|].
    destruct (match_here is_decimal r (c :: s)) as [[k item]|] eqn:E.
    + pose proof E as E'.
      apply match_here_sound in E' as (w & t & Es & -> & L & Hitem & _).
      specialize (Hitem r_no_group). subst item. rewrite Es in *.
      rewrite (scan_hit r w t w) by (auto using lang_nonempty).
      apply (occ_next is_decimal r [] w t); auto.
      * intros g1 g2 w0 t0 Eg Hg2. symmetry in Eg.
        apply app_eq_nil in Eg as [_ ->]. done.
      * intros w0 t0 Ew L0. by apply (r_shortest _ _ _ _ _ E Ew).
      * apply IH. pose proof (lang_nonempty w L) as Hw.
        rewrite length_app in Hlen.
        destruct w; [done|]. simpl in Hlen. lia.
    + rewrite scan_miss by done. apply occurrences_skip; [done|].
      apply IH. simpl in Hlen. lia.
Qed.

(** The scan returns the non-overlapping occurrences of the pattern. *)
Lemma findall_occurrences s :
  occurrences is_decimal r s (findall is_decimal r s).
Proof. by apply (scan_occurrences_aux (length s)). Qed.

(** They are the only ones. *)
Lemma occurrences_findall s ms :
  occurrences is_decimal r s ms -> ms = findall is_decimal r s.
Proof.
  unfold findall.
  induction 1 as [s Hno|gap m rest ms L Hleft Hshort Hrest IH].
  - by rewrite scan_no_occurrence.
  - subst ms. induction gap as [|c gap IHgap]; simpl app.
    + destruct (match_here_complete r m rest L) as [[k item] E].
      pose proof E as E'.
      apply match_here_sound in E' as (w & t & Es & -> & Lw & Hitem & _).
      specialize (Hitem r_no_group). subst item.
      pose proof (Hshort w t Es Lw) as H1.
      pose proof (r_shortest _ _ _ m rest E eq_refl L) as H2.
      assert (length m = length w) as Hlen by lia.
      apply app_inj_1 in Es as [-> ->]; [|done].
      by rewrite (scan_hit r w t w) by (auto using lang_nonempty).
    + destruct (match_here is_decimal r (c :: gap ++ m ++ rest))
        as [[k item]|] eqn:E.
      * exfalso.
        apply match_here_sound in E as (w & t & Es & _ & Lw & _).
        by apply (Hleft [] (c :: gap) w t).
      * rewrite scan_miss by done. apply IHgap.
        intros g1 g2 w t -> Hg2 E2. by apply (Hleft (c :: g1) g2 w t).
Qed.

End Occurrences.

(** *** The scan against the occurrences of either selection *)

Section OccurrencesBy.

Variable sel : selection.
Variable r : re.
Hypothesis r_not_nullable : nullable r = false.
Hypothesis r_no_group : has_group r = false.
Hypothesis r_selects : selects is_decimal sel r.

Lemma lang_not_nil w : lang is_decimal r w -> w <> [].
Proof.
  intros L ->. apply lang_nullable in L; [congruence|done].
Qed.

Lemma prefers_antisym n k : prefers sel n k -> prefers sel k n -> n = k.
Proof. destruct sel; simpl; lia. Qed.

Lemma occurrences_by_skip c s ms :
  match_here is_decimal r (c :: s) = None ->
  occurrences_by is_decimal sel r s ms ->
  occurrences_by is_decimal sel r (c :: s) ms.
Proof.
  intros Hnone H. inversion H as [s0 Hno|gap m rest ms' L Hleft Hsel Hrest];
    subst.
  - apply occ_by_none. intros Ho.
    apply occurs_cons in Ho as [(w & t & E & L)|Ho]; [|done].
    by apply (match_here_none r _ w t Hnone).
  - change (c :: gap ++ m ++ rest) with ((c :: gap) ++ m ++ rest).
    apply occ_by_next; auto.
    intros [|c' g1] g2 w t E Hg2 E2; simpl in E.
    + subst g2. simpl in E2. by apply (match_here_none r _ w t Hnone).
    + inversion E; subst. by apply (Hleft g1 g2 w t).
Qed.

Lemma scan_occurrences_by_aux n : forall s,
  (length s <= n)%nat ->
  occurrences_by is_decimal sel r s (scan is_decimal r s 0).
Proof.
  assert (Hnil : occurrences_by is_decimal sel r [] []).
  { apply occ_by_none. intros (w & (a & b & E) & L).
    symmetry in E. apply app_eq_nil in E as [_ E].
    apply app_eq_nil in E as [-> _]. by apply (lang_not_nil []). }
  induction n as [|n IH]; intros s Hlen.
  - destruct s; [exact Hnil|simpl in Hlen; lia].
  - destruct s as [|c s]; [exact Hnil|].
    destruct (match_here is_decimal r (c :: s)) as [[k item]|] eqn:E.
    + pose proof E as E'.
      apply match_here_sound in E' as (w & t & Es & -> & L & Hitem & _).
      specialize (Hitem r_no_group). subst item. rewrite Es in *.
      rewrite (scan_hit r w t w) by (auto using lang_not_nil).
      apply (occ_by_next is_decimal sel r [] w t); auto.
      * intros g1 g2 w0 t0 Eg Hg2. symmetry in Eg.
        apply app_eq_nil in Eg as [_ ->]. done.
      * intros w0 t0 Ew L0. by apply (r_selects _ _ _ _ _ E Ew).
      * apply IH. pose proof (lang_not_nil w L) as Hw.
        rewrite length_app in Hlen.
        destruct w; [done|]. simpl in Hlen. lia.
    + rewrite scan_miss by done. apply occurrences_by_skip; [done|].
      apply IH. simpl in Hlen. lia.
Qed.

(** The scan returns the occurrences of the pattern. *)
Lemma findall_occurrences_by s :
  occurrences_by is_decimal sel r s (findall is_decimal r s).
Proof. by apply (scan_occurrences_by_aux (length s)). Qed.

(** They are the only ones. *)
Lemma occurrences_by_findall s ms :
  occurrences_by is_decimal sel r s ms -> ms = findall is_decimal r s.
Proof.
  unfold findall.
  induction 1 as [s Hno|gap m rest ms L Hleft Hsel Hrest IH].
  - by rewrite scan_no_occurrence.
  - subst ms. induction gap as [|c gap IHgap]; simpl app.
    + destruct (match_here_complete r m rest L) as [[k item] E].
      pose proof E as E'.
      apply match_here_sound in E' as (w & t & Es & -> & Lw & Hitem & _).
      specialize (Hitem r_no_group). subst item.
      pose proof (Hsel w t Es Lw) as H1.
      pose proof (r_selects _ _ _ m rest E eq_refl L) as H2.
      pose proof (prefers_antisym _ _ H1 H2) as Hlen.
      apply app_inj_1 in Es as [-> ->]; [|done].
      by rewrite (scan_hit r w t w) by (auto using lang_not_nil).
    + destruct (match_here is_decimal r (c :: gap ++ m ++ rest))
        as [[k item]|] eqn:E.
      * exfalso.
        apply match_here_sound in E as (w & t & Es & _ & Lw & _).
        by apply (Hleft [] (c :: gap) w t).
      * rewrite scan_miss by done. apply IHgap.
        intros g1 g2 w t -> Hg2 E2. by apply (Hleft (c :: g1) g2 w t).
Qed.

End OccurrencesBy.

End EngineFacts.

(** * Numerals *)

Section Numerals.

Import DecimalPos.Unsigned.

Lemma digits_of_nonempty d : d <> Nil -> digits_of d <> [].
Proof. by destruct d. Qed.

Lemma value_from_digits d : forall acc,
  value_from acc (digits_of d)
  = Some (of_lu (Decimal.rev d) + acc * 10 ^ usize d).
Proof.
  induction d; intros acc; simpl digits_of; simpl value_from.
  1: { simpl. f_equal. lia. }
  all: rewrite IHd; f_equal; unfold Decimal.rev at 2; simpl revapp.
  all: rewrite (of_lu_revapp d); simpl of_lu; simpl usize; simpl N.sub.
  all: rewrite N.pow_succ_r'.
  all: match goal with
       | |- context [?a - ?b] =>
         let v := eval vm_compute in (a - b) in change (a - b) with v
       end.
  all: ring.
Qed.

Lemma to_uint_nonnil (n : N) : N.to_uint n <> Nil.
Proof.
  destruct n as [|p]; simpl; [discriminate|].
  apply DecimalPos.Unsigned.to_uint_nonnil.
Qed.

Lemma str_of_N_nonempty n : str_of_N n <> [].
Proof. apply digits_of_nonempty, to_uint_nonnil. Qed.

(** The digits printed for a number read back as that number. *)
Lemma value_of_str_of_N n : value_of (str_of_N n) = Some n.
Proof.
  pose proof (str_of_N_nonempty n) as Hne.
  unfold value_of. destruct (str_of_N n) eqn:E; [done|].
  rewrite <- E. unfold str_of_N. rewrite value_from_digits.
  rewrite <- of_uint_alt, N.mul_0_l, N.add_0_r.
  f_equal. apply DecimalN.Unsigned.of_to.
Qed.

Lemma group3_grouped n : forall ds,
  (length ds <= n)%nat -> ds <> [] -> grouped (rev ds) (rev (group3 ds)).
Proof.
  induction n as [|n IH]; intros ds Hlen Hne.
  - destruct ds; [done|simpl in Hlen; lia].
  - destruct ds as [|a [|b [|c [|d rest]]]]; [done|..];
      try (apply grouped_head; rewrite length_rev; simpl; lia).
    change (group3 (a :: b :: c :: d :: rest))
      with (a :: b :: c :: 44 :: group3 (d :: rest)).
    change (a :: b :: c :: d :: rest) with ([a; b; c] ++ d :: rest).
    change (a :: b :: c :: 44 :: group3 (d :: rest))
      with ([a; b; c; 44] ++ group3 (d :: rest)).
    rewrite !rev_app_distr. apply grouped_more.
    apply IH; [simpl in *; lia|done].
Qed.

(** [f"{n:,}"] is the decimal numeral of [n] in groups of three. *)
Lemma fmt_thousands_grouped n : grouped (str_of_N n) (fmt_thousands n).
Proof.
  unfold fmt_thousands.
  rewrite <- (rev_involutive (str_of_N n)) at 1.
  apply (group3_grouped (length (rev (str_of_N n)))); [lia|].
  intros E. apply (f_equal (@rev N)) in E. rewrite rev_involutive in E.
  by apply (str_of_N_nonempty n).
Qed.

End Numerals.

(** * What the scan reports *)

Section ScanFacts.

Variable is_decimal : N -> bool.

Lemma pieces_prepend x s ms :
  pieces_in_order s ms -> pieces_in_order (x ++ s) ms.
Proof.
  intros [s'|a m b ms' H]; [constructor|].
  rewrite app_assoc. by constructor.
Qed.

Lemma pieces_substring s ms m :
  pieces_in_order s ms -> In m ms -> substring m s.
Proof.
  induction 1 as [s|a m' b ms H IH]; intros Hin; [done|].
  destruct Hin as [->|Hin].
  - by exists a, b.
  - destruct (IH Hin) as (x & y & ->).
    exists (a ++ m' ++ x), y. by rewrite <- !app_assoc.
Qed.

(** The item of a match is a piece of the matched text. *)
Lemma match_here_item r s n item :
  match_here is_decimal r s = Some (n, item) ->
  exists a b t, s = (a ++ item ++ b) ++ t /\ n = length (a ++ item ++ b).
Proof.
  intros H.
  apply match_here_sound in H as (w & t & -> & -> & _ & Hno & Hyes).
  destruct (has_group r).
  - destruct (Hyes eq_refl) as [->|[_ (a & b & ->)]].
    + by exists [], w, t.
    + by exists a, b, t.
  - rewrite (Hno eq_refl). exists [], [], t. by rewrite app_nil_r.
Qed.

Lemma scan_pieces r : forall s skip,
  pieces_in_order (drop skip s) (scan is_decimal r s skip).
Proof.
  induction s as [|c s IH]; intros skip.
  - destruct skip; constructor.
  - destruct skip as [|j]; [|apply IH].
    simpl scan. simpl drop.
    destruct (match_here is_decimal r (c :: s)) as [[n item]|] eqn:E.
    + apply match_here_item in E as (a & b & t & E & ->).
      specialize (IH (length (a ++ item ++ b) - 1)%nat).
      revert IH. rewrite E.
      destruct (a ++ item ++ b) as [|c' w] eqn:Ew.
      * apply app_eq_nil in Ew as [-> Ew].
        apply app_eq_nil in Ew as [-> ->].
        simpl in *. subst t. simpl. intros IH.
        apply (pieces_cons [] [] (c :: s)).
        by apply (pieces_prepend [c]).
      * simpl in E. inversion E; subst c' s. simpl.
        rewrite Nat.sub_0_r, drop_app_length. intros IH.
        change (c :: w ++ t) with ((c :: w) ++ t).
        rewrite <- Ew, <- !app_assoc. constructor.
        by apply pieces_prepend.
    + apply (pieces_prepend [c]). apply (IH 0%nat).
Qed.

(** The matches are found from left to right and do not overlap. *)
Lemma findall_in_order r s :
  pieces_in_order s (findall is_decimal r s).
Proof. apply (scan_pieces r s 0). Qed.

Lemma scan_items r : forall s skip m,
  In m (scan is_decimal r s skip) ->
  exists s0 n, match_here is_decimal r s0 = Some (n, m).
Proof.
  induction s as [|c s IH]; intros skip m H; [done|].
  destruct skip as [|j]; [|by apply (IH j)].
  simpl in H.
  destruct (match_here is_decimal r (c :: s)) as [[n item]|] eqn:E.
  - destruct H as [->|H]; eauto.
  - eauto.
Qed.

Lemma lang_nl_free r w :
  lang is_decimal r w -> nl_free is_decimal r = true ->
  Forall (fun c => c <> 10) w.
Proof.
  induction 1 as [|cs c Hc|b cs w Hw|r1 r2 w1 w2 _ IH1 _ IH2
                  |r1 r2 w _ IH|r1 r2 w _ IH|r w _ IH];
    simpl; intros Hfree.
  - constructor.
  - repeat constructor. intros ->. by rewrite Hc in Hfree.
  - eapply Forall_impl; [exact Hw|]. simpl.
    intros c Hc ->. by rewrite Hc in Hfree.
  - apply andb_prop in Hfree as [? ?]. apply Forall_app. auto.
  - apply andb_prop in Hfree as [? ?]. auto.
  - apply andb_prop in Hfree as [? ?]. auto.
  - auto.
Qed.

Lemma captures_nl_free r c :
  captures is_decimal r c -> nl_free is_decimal r = true ->
  Forall (fun c => c <> 10) c.
Proof.
  induction r as [|cs|b cs|r1 IH1 r2 IH2|r1 IH1 r2 IH2|r1 IH1];
    simpl; try done.
  - intros [H|H] Hfree; apply andb_prop in Hfree as [? ?]; auto.
  - intros [H|H] Hfree; apply andb_prop in Hfree as [? ?]; auto.
  - apply lang_nl_free.
Qed.

(** A reported item is a piece of the text and holds no line feed. *)
Lemma findall_item r s m :
  nl_free is_decimal r = true ->
  In m (findall is_decimal r s) ->
  substring m s /\ Forall (fun c => c <> 10) m.
Proof.
  intros Hfree Hin. split.
  - eapply pieces_substring; [apply findall_in_order|exact Hin].
  - apply scan_items in Hin as (s0 & n & E).
    apply match_here_sound in E as (w & t & _ & _ & L & Hno & Hyes).
    destruct (has_group r).
    + destruct (Hyes eq_refl) as [->|[Hc _]]; [constructor|].
      by apply (captures_nl_free r).
    + rewrite (Hno eq_refl). by apply (lang_nl_free r).
Qed.

Lemma lines_of_nonempty s : exists l ls, lines_of s = l :: ls.
Proof.
  destruct s as [|c s]; simpl; [eauto|].
  destruct (c =? 10); [eauto|]. destruct (lines_of s); eauto.
Qed.

Lemma lines_of_app m t :
  Forall (fun c => c <> 10) m ->
  exists l ls, lines_of t = l :: ls /\ lines_of (m ++ t) = (m ++ l) :: ls.
Proof.
  induction 1 as [|c m Hc Hm IH]; simpl.
  - destruct (lines_of_nonempty t) as (l & ls & ->). eauto.
  - destruct IH as (l & ls & E1 & E2). exists l, ls. split; [done|].
    apply N.eqb_neq in Hc. by rewrite Hc, E2.
Qed.

(** A piece of the text without a line feed lies within one line. *)
Lemma substring_within_line s m :
  substring m s -> Forall (fun c => c <> 10) m -> within_one_line s m.
Proof.
  intros (a & b & ->) Hm. induction a as [|c a IH]; simpl.
  - destruct (lines_of_app m b Hm) as (l' & ls' & _ & E).
    exists (m ++ l'), [], l'. rewrite E. split; [by left|done].
  - destruct IH as (l & x & y & Hin & ->).
    unfold within_one_line. simpl lines_of. destruct (c =? 10).
    + exists (x ++ m ++ y), x, y. split; [by right|done].
    + destruct (lines_of (a ++ m ++ b)) as [|l0 ls0]; [done|].
      destruct Hin as [->|Hin].
      * exists (c :: x ++ m ++ y), (c :: x), y. split; [by left|done].
      * exists (x ++ m ++ y), x, y. split; [by right|done].
Qed.

Lemma In_take {A} (x : A) n l : In x (take n l) -> In x l.
Proof.
  revert l. induction n as [|n IH]; intros [|y l]; simpl; try done.
  intros [->|H]; auto.
Qed.

End ScanFacts.

(** * What the console can encode *)

Section EncodingFacts.

(** The tests on bytes as inequalities. *)
Ltac bytes_to_prop :=
  unfold Utf8.cont, Utf8.between, Utf8.low6 in *;
  repeat match goal with
         | H : _ && _ = true |- _ => apply andb_prop in H as [? ?]
         | H : (_ <=? _) = true |- _ => apply N.leb_le in H
         | H : (_ <? _) = true |- _ => apply N.ltb_lt in H
         | H : (_ <? _) = false |- _ => apply N.ltb_ge in H
         | H : (_ =? _) = true |- _ => apply N.eqb_eq in H
         | H : (_ =? _) = false |- _ => apply N.eqb_neq in H
         end.

Lemma decode_scalar_aux n : forall bs s,
  (length bs <= n)%nat -> Utf8.decode bs = Some s -> Forall scalar_value s.
Proof.
  induction n as [|n IH]; intros bs s Hlen H.
  - destruct bs; [|simpl in Hlen; lia]. inversion H. constructor.
  - destruct bs as [|b0 t0]; [inversion H; constructor|].
    simpl in Hlen. cbn [Utf8.decode] in H.
    destruct (b0 <? 0x80) eqn:E1.
    { destruct (Utf8.decode t0) as [s0|] eqn:E; [|done].
      inversion H; subst s. constructor; [|apply (IH t0); [lia|done]].
      bytes_to_prop. unfold scalar_value. lia. }
    destruct (Utf8.between 0xC2 0xDF b0) eqn:E2.
    { destruct t0 as [|b1 t1]; [done|].
      destruct (Utf8.cont b1) eqn:C1; [|done].
      destruct (Utf8.decode t1) as [s0|] eqn:E; [|done].
      inversion H; subst s. simpl in Hlen.
      constructor; [|apply (IH t1); [lia|done]].
      bytes_to_prop. unfold scalar_value. lia. }
    destruct (Utf8.between 0xE0 0xEF b0) eqn:E3.
    { destruct t0 as [|b1 [|b2 t2]]; [done..|].
      destruct (Utf8.between _ _ b1 && Utf8.cont b2) eqn:C; [|done].
      destruct (Utf8.decode t2) as [s0|] eqn:E; [|done].
      inversion H; subst s. simpl in Hlen.
      constructor; [|apply (IH t2); [lia|done]].
      unfold Utf8.second3 in C.
      destruct (b0 =? 0xE0) eqn:B1; [|destruct (b0 =? 0xED) eqn:B2];
        simpl in C; bytes_to_prop; unfold scalar_value; lia. }
    destruct (Utf8.between 0xF0 0xF4 b0) eqn:E4; [|done].
    destruct t0 as [|b1 [|b2 [|b3 t3]]]; [done..|].
    destruct (Utf8.between _ _ b1 && Utf8.cont b2 && Utf8.cont b3) eqn:C;
      [|done].
    destruct (Utf8.decode t3) as [s0|] eqn:E; [|done].
    inversion H; subst s. simpl in Hlen.
    constructor; [|apply (IH t3); [lia|done]].
    unfold Utf8.second4 in C.
    destruct (b0 =? 0xF0) eqn:B1; [|destruct (b0 =? 0xF4) eqn:B2];
      simpl in C; bytes_to_prop; unfold scalar_value; lia.
Qed.

Lemma universal_newlines_keeps (P : N -> Prop) n : forall s,
  (length s <= n)%nat -> P 10 -> Forall P s ->
  Forall P (universal_newlines s).
Proof.
  induction n as [|n IH]; intros s Hlen H10 Hs.
  - destruct s; [constructor|simpl in Hlen; lia].
  - destruct Hs as [|c t Hc Ht]; simpl; [constructor|].
    simpl in Hlen. destruct (c =? 13).
    + constructor; [done|]. destruct Ht as [|d t' Hd Ht']; [constructor|].
      simpl in Hlen. destruct (d =? 10); apply IH; auto; simpl; lia.
    + constructor; [done|]. apply IH; auto. lia.
Qed.

Lemma substring_Forall (P : N -> Prop) m s :
  substring m s -> Forall P s -> Forall P m.
Proof.
  intros (a & b & ->) H. apply Forall_app in H as [_ H].
  by apply Forall_app in H as [H _].
Qed.

Lemma scalar_spec c : scalar c = true <-> scalar_value c.
Proof.
  unfold scalar, scalar_value. split.
  - intros H. apply orb_prop in H as [H|H]; bytes_to_prop; lia.
  - intros [H1 H2]. destruct (c <? 0xD800) eqn:E; [done|]. simpl.
    apply andb_true_intro. split; [apply N.ltb_lt|apply N.ltb_lt];
      bytes_to_prop; lia.
Qed.

Lemma encodable_Forall s : encodable s = true <-> Forall scalar_value s.
Proof.
  unfold encodable. rewrite forallb_forall, Forall_forall.
  split; intros H c Hc.
  - apply scalar_spec, H. by apply list_elem_of_In.
  - apply scalar_spec, H. by apply list_elem_of_In.
Qed.

Lemma encodable_app a b : encodable (a ++ b) = encodable a && encodable b.
Proof. apply forallb_app. Qed.

Lemma encodable_bullet e : encodable (bullet e) = encodable e.
Proof. unfold bullet. by rewrite encodable_app. Qed.

Lemma encodable_substring m s :
  substring m s -> encodable s = true -> encodable m = true.
Proof.
  intros Hsub H. apply encodable_Forall.
  apply (substring_Forall _ m s Hsub). by apply encodable_Forall.
Qed.

Lemma encodable_digits d : encodable (digits_of d) = true.
Proof. induction d; simpl; auto. Qed.

Lemma encodable_str_of_N n : encodable (str_of_N n) = true.
Proof. apply encodable_digits. Qed.

Lemma encodable_grouped ds out :
  grouped ds out -> encodable ds = true -> encodable out = true.
Proof.
  induction 1 as [ds Hlen|ds out a b c Hg IH]; [done|].
  rewrite !encodable_app. intros H. apply andb_prop in H as [H1 H2].
  rewrite IH by done. simpl in *. exact H2.
Qed.

Lemma encodable_fmt_thousands n : encodable (fmt_thousands n) = true.
Proof.
  apply (encodable_grouped (str_of_N n)).
  - apply fmt_thousands_grouped.
  - apply encodable_str_of_N.
Qed.

Lemma printable_all names :
  Forall (fun e => encodable e = true) names ->
  forallb encodable names = true /\ printable names = names.
Proof.
  induction 1 as [|e names He Hn [IH1 IH2]]; [done|].
  simpl. by rewrite He, IH1, IH2.
Qed.



(** The text read from the log can be printed. *)
Lemma log_text_encodable fsys content :
  log_text fsys = Some content -> encodable content = true.
Proof.
  unfold log_text. intros H.
  destruct (fsys !! path_text log_file) as [[data|size entries]|];
    try done.
  destruct (Utf8.decode (map Byte.to_N data)) as [s|] eqn:E; [|done].
  simpl in H. inversion H. apply encodable_Forall.
  apply (universal_newlines_keeps scalar_value (length s)); [lia|..].
  - unfold scalar_value. lia.
  - apply (decode_scalar_aux (length (map Byte.to_N data))
             (map Byte.to_N data) s); [lia|done].
Qed.

End EncodingFacts.

(** * The steps of the script and what they print *)

(** Two concatenations with the same leaves. *)
Ltac list_norm :=
  repeat (rewrite <- app_comm_cons || rewrite <- app_assoc
          || rewrite app_nil_l);
  reflexivity.

Section StepFacts.

Variable is_decimal : N -> bool.

Lemma bind_run {A B} (m : M A) (f : A -> M B) w :
  (m ≫= f) w = match m w with
               | (Ok a, w') => f a w'
               | (Raise e, w') => (Raise e, w')
               end.
Proof. reflexivity. Qed.

Lemma print_run s w :
  encodable s = true -> print s w = (Ok tt, printed w [s]).
Proof. intros H. unfold print. by rewrite H. Qed.

Lemma print_raise s w :
  encodable s = false -> print s w = (Raise UnicodeEncodeError, w).
Proof. intros H. unfold print. by rewrite H. Qed.

Lemma printed_nil w : printed w [] = w.
Proof. destruct w. unfold printed. simpl. by rewrite app_nil_r. Qed.

Lemma printed_app w a b : printed (printed w a) b = printed w (a ++ b).
Proof. unfold printed. simpl. by rewrite app_assoc. Qed.

Lemma fs_printed w out : fs (printed w out) = fs w.
Proof. reflexivity. Qed.

(** A loop whose body prints a block that depends on the file system
    only. *)
Lemma for_each_blocks {A} (body : A -> M unit)
      (f : gmap pystr node -> A -> list pystr) xs :
  (forall x w, In x xs -> body x w = (Ok tt, printed w (f (fs w) x))) ->
  forall w, for_each xs body w
            = (Ok tt, printed w (concat (map (f (fs w)) xs))).
Proof.
  induction xs as [|x xs IH]; intros Hbody w; simpl.
  - by rewrite printed_nil.
  - rewrite bind_run, Hbody by (by left).
    rewrite IH by (intros; apply Hbody; by right).
    by rewrite printed_app.
Qed.

Lemma for_each_print {A} (f : A -> pystr) xs w :
  Forall (fun x => encodable (f x) = true) xs ->
  for_each xs (fun x => print (f x)) w = (Ok tt, printed w (map f xs)).
Proof.
  intros Hxs.
  rewrite (for_each_blocks _ (fun _ x => [f x])).
  - f_equal. f_equal. clear Hxs. induction xs; simpl; congruence.
  - intros x w' Hx. apply print_run.
    rewrite Forall_forall in Hxs. by apply Hxs, list_elem_of_In.
Qed.

(** The loop over the entries of the directory: it prints the names up to
    the first one that cannot be encoded and raises there. *)
Lemma for_each_print_names dir entries w :
  for_each (map (mkPath dir) entries)
           (fun file => print (u "   - " ++ name file)) w
  = (if forallb encodable entries then Ok tt else Raise UnicodeEncodeError,
     printed w (map bullet (printable entries))).
Proof.
  revert w. induction entries as [|e entries IH]; intros w; simpl.
  - by rewrite printed_nil.
  - rewrite bind_run.
    change (32 :: 32 :: 32 :: 45 :: 32 :: e) with (bullet e).
    destruct (encodable e) eqn:He.
    + rewrite print_run by (by rewrite encodable_bullet).
      rewrite IH, printed_app. reflexivity.
    + rewrite print_raise by (by rewrite encodable_bullet).
      simpl. by rewrite printed_nil.
Qed.

Lemma path_exists_run p w :
  path_exists p w = (Ok (bool_decide (is_Some (fs w !! path_text p))), w).
Proof. reflexivity. Qed.

Lemma encodable_artifact_line fsys file :
  In file files_to_check -> encodable (artifact_line fsys file) = true.
Proof.
  intros Hin. unfold artifact_line.
  assert (encodable file = true) as Hf.
  { destruct Hin as [<-|[<-|[<-|[]]]]; reflexivity. }
  destruct (fsys !! _); rewrite !encodable_app, Hf, ?encodable_fmt_thousands;
    reflexivity.
Qed.

Lemma check_artifacts_run w :
  check_artifacts w
  = (Ok tt, printed w (map (artifact_line (fs w)) files_to_check)).
Proof.
  unfold check_artifacts.
  rewrite (for_each_blocks _ (fun fsys x => [artifact_line fsys x])).
  - f_equal.
  - intros file w' Hin. rewrite bind_run, path_exists_run.
    pose proof (encodable_artifact_line (fs w') file Hin) as Henc.
    unfold artifact_line in *.
    destruct (fs w' !! path_text (mkPath base_dir file)) as [n|] eqn:E.
    + rewrite bool_decide_true by eauto.
      rewrite bind_run. unfold stat_size. rewrite E. by apply print_run.
    + rewrite bool_decide_false by (by intros [? ?]). by apply print_run.
Qed.

Lemma list_output_run w :
  list_output w
  = (fst (listing_outcome (fs w)), printed w (snd (listing_outcome (fs w)))).
Proof.
  unfold list_output, listing_outcome, listed.
  rewrite bind_run, path_exists_run.
  destruct (fs w !! path_text output_dir) as [n|] eqn:E.
  - rewrite bool_decide_true by eauto.
    rewrite bind_run. unfold glob_star. rewrite E.
    destruct n as [data|size entries].
    + rewrite bind_run, print_run
        by (unfold str_of_len; rewrite !encodable_app, encodable_str_of_N;
            reflexivity).
      reflexivity.
    + rewrite bind_run, print_run
        by (unfold str_of_len; rewrite !encodable_app, encodable_str_of_N;
            reflexivity).
      rewrite for_each_print_names, printed_app.
      unfold str_of_len, listing_head. rewrite length_map. reflexivity.
  - rewrite bool_decide_false by (by intros [? ?]).
    by rewrite print_run.
Qed.

Lemma encodable_shown (content : pystr) r n :
  encodable content = true ->
  Forall (fun m => encodable (bullet m) = true)
         (take n (findall is_decimal r content)).
Proof.
  intros Hc. apply Forall_forall. intros m Hm.
  apply list_elem_of_In, In_take in Hm. rewrite encodable_bullet.
  apply (encodable_substring m content); [|done].
  eapply pieces_substring; [apply findall_in_order|exact Hm].
Qed.

Lemma encodable_not_found_line label :
  encodable label = true -> encodable (not_found_line label) = true.
Proof.
  intros Hl. unfold not_found_line. by rewrite !encodable_app, Hl.
Qed.

Lemma encodable_found_line label n :
  encodable label = true -> encodable (found_line label n) = true.
Proof.
  intros Hl. unfold found_line.
  by rewrite !encodable_app, Hl, encodable_str_of_N.
Qed.

Lemma report_pattern_run content row w :
  encodable (fst row) = true -> encodable content = true ->
  report_pattern is_decimal content row w
  = (Ok tt, printed w (pattern_block is_decimal content row)).
Proof.
  destruct row as [label pattern]. simpl fst. intros Hl Hc.
  unfold report_pattern, pattern_block, shown. cbn [fst snd].
  destruct (findall is_decimal pattern content) as [|m ms] eqn:E.
  - apply print_run. by apply encodable_not_found_line.
  - rewrite bind_run.
    change (print _ w) with
      (print (found_line label (N.of_nat (length (m :: ms)))) w).
    rewrite print_run by (by apply encodable_found_line).
    rewrite (for_each_print bullet), printed_app; [reflexivity|].
    rewrite <- E. by apply encodable_shown.
Qed.

Lemma report_ips_run content w :
  encodable content = true ->
  report_ips is_decimal content w
  = (Ok tt, printed w (ip_block is_decimal content)).
Proof.
  intros Hc. unfold report_ips, ip_block, shown_ips.
  destruct (findall is_decimal pat_ip content) as [|m ms] eqn:E.
  - by rewrite printed_nil.
  - rewrite bind_run, print_run by reflexivity.
    rewrite (for_each_print bullet), printed_app; [reflexivity|].
    rewrite <- E. by apply encodable_shown.
Qed.

Lemma encodable_labels row : In row patterns -> encodable (fst row) = true.
Proof.
  intros H. destruct H as [<-|[<-|[<-|[<-|[<-|[]]]]]]; reflexivity.
Qed.

Lemma pattern_loop_run content w :
  encodable content = true ->
  for_each patterns (report_pattern is_decimal content) w
  = (Ok tt,
     printed w (concat (map (pattern_block is_decimal content) patterns))).
Proof.
  intros Hc.
  apply (for_each_blocks _ (fun _ => pattern_block is_decimal content)).
  intros row w' Hrow. apply report_pattern_run; [|done].
  by apply encodable_labels.
Qed.

Lemma analyze_log_run w :
  analyze_log is_decimal w
  = (fst (analysis_outcome is_decimal (fs w)),
     printed w (snd (analysis_outcome is_decimal (fs w)))).
Proof.
  pose proof (log_text_encodable (fs w)) as Henc.
  unfold analyze_log, analysis_outcome. unfold log_text in Henc.
  rewrite bind_run, path_exists_run.
  destruct (fs w !! path_text log_file) as [n|] eqn:E.
  - rewrite bool_decide_true by eauto.
    rewrite bind_run. unfold read_text. rewrite E.
    destruct n as [data|size entries]; [|by rewrite printed_nil].
    destruct (Utf8.decode (map Byte.to_N data)) as [s|];
      [|by rewrite printed_nil].
    specialize (Henc _ eq_refl).
    rewrite bind_run, print_run, bind_run by reflexivity.
    rewrite pattern_loop_run by done.
    rewrite report_ips_run, !printed_app by done. reflexivity.
  - rewrite bool_decide_false by (by intros [? ?]).
    by rewrite print_run.
Qed.

Lemma print_hints_run w : print_hints w = (Ok tt, printed w hints).
Proof.
  unfold print_hints. rewrite (for_each_print (fun x => x)).
  - by rewrite map_id.
  - by repeat constructor.
Qed.

(** The run as a whole: the banner, the three steps, and the hints unless
    a step raised. *)
Lemma diagnose_issues_run w :
  diagnose_issues is_decimal w
  = (fst (run_outcome is_decimal (fs w)),
     printed w (snd (run_outcome is_decimal (fs w)))).
Proof.
  unfold diagnose_issues, run_outcome.
  rewrite bind_run, print_run, bind_run, check_artifacts_run by reflexivity.
  rewrite bind_run, list_output_run, !fs_printed, !printed_app.
  destruct (fst (listing_outcome (fs w))) as [[]|e]; [|reflexivity].
  rewrite bind_run, analyze_log_run, !fs_printed, !printed_app.
  destruct (fst (analysis_outcome is_decimal (fs w))) as [[]|e].
  - rewrite print_hints_run, printed_app. cbn [fst snd].
    do 2 f_equal. unfold banner. list_norm.
  - cbn [fst snd]. do 2 f_equal.
Qed.

End StepFacts.

(** * The steps that do not look into the log *)

Section Claims.

Variable is_decimal : N -> bool.

(** C4. Without a log file the analysis prints the one line that says so
    and nothing else, returns normally and leaves the file system as it
    was: no pattern is searched and no address is extracted. *)
Theorem analyze_log_missing w :
  fs w !! path_text log_file = None ->
  analyze_log is_decimal w = (Ok tt, printed w [no_log_line]).
Proof.
  intros H. rewrite analyze_log_run. unfold analysis_outcome.
  by rewrite H.
Qed.


(** C6. The check of the expected files returns normally and prints one
    line per file name, in the order of the list.  The line of a file that
    exists carries its size, the decimal numeral of [st_size] in groups of
    three digits, and for a regular file that size is the number of its
    bytes; the line of a file that does not exist says so.  The line of a
    file depends on nothing but what its own path leads to. *)
Theorem check_artifacts_reports w :
  check_artifacts w
  = (Ok tt, printed w (map (artifact_line (fs w)) files_to_check))
  /\ length (map (artifact_line (fs w)) files_to_check) = 3%nat
  /\ (forall file n,
        fs w !! path_text (mkPath base_dir file) = Some n ->
        artifact_line (fs w) file
        = u "✅ " ++ file ++ u ": 存在 (" ++ fmt_thousands (st_size n)
          ++ u " 字节)"
        /\ grouped (str_of_N (st_size n)) (fmt_thousands (st_size n))
        /\ value_of (str_of_N (st_size n)) = Some (st_size n))
  /\ (forall data, st_size (File data) = N.of_nat (length data))
  /\ (forall file,
        fs w !! path_text (mkPath base_dir file) = None ->
        artifact_line (fs w) file = u "❌ " ++ file ++ u ": 不存在")
  /\ (forall w' file,
        fs w' !! path_text (mkPath base_dir file)
        = fs w !! path_text (mkPath base_dir file) ->
        artifact_line (fs w') file = artifact_line (fs w) file).
Proof.
  split; [apply check_artifacts_run|]. split; [reflexivity|].
  split; [|split; [reflexivity|split]].
  - intros file n H. unfold artifact_line. rewrite H.
    split; [reflexivity|]. split.
    + apply fmt_thousands_grouped.
    + apply value_of_str_of_N.
  - intros file H. unfold artifact_line. by rewrite H.
  - intros w' file H. unfold artifact_line. by rewrite H.
Qed.

(** C8. The run does not change the file system, whether it returns or
    raises. *)
Theorem run_is_read_only w :
  fs (snd (diagnose_issues is_decimal w)) = fs w.
Proof.
  rewrite diagnose_issues_run. reflexivity.
Qed.

(** The listing gets through when every name can be encoded. *)
Lemma listing_outcome_ok f :
  names_encodable f -> listing_outcome f = (Ok tt, listing_lines f).
Proof.
  intros H. unfold listing_outcome, listing_lines.
  destruct (printable_all _ H) as [-> ->]. by destruct (f !! _).
Qed.


Lemma same_node_size n1 n2 :
  same_node (Some n1) (Some n2) -> st_size n1 = st_size n2.
Proof.
  destruct n1, n2; simpl; try done.
  - by intros ->.
  - by intros [-> _].
Qed.

Lemma same_artifact_line f1 f2 file :
  same_up_to_order f1 f2 -> artifact_line f1 file = artifact_line f2 file.
Proof.
  intros H. specialize (H (path_text (mkPath base_dir file))).
  unfold artifact_line.
  destruct (f1 !! _) as [n1|], (f2 !! _) as [n2|]; try done.
  - by rewrite (same_node_size n1 n2).
  - by destruct n1.
Qed.

Lemma same_listed f1 f2 :
  same_up_to_order f1 f2 -> listed f1 ≡ₚ listed f2.
Proof.
  intros H. specialize (H (path_text output_dir)). unfold listed.
  destruct (f1 !! _) as [[d1|z1 e1]|], (f2 !! _) as [[d2|z2 e2]|];
    simpl in H; try done.
  by destruct H.
Qed.

Lemma same_names_encodable f1 f2 :
  same_up_to_order f1 f2 -> names_encodable f1 -> names_encodable f2.
Proof.
  intros H. unfold names_encodable.
  apply Permutation_Forall. by apply same_listed.
Qed.

(** The first line of the listing step. *)
Lemma listing_lines_split f :
  exists head, listing_lines f = head :: map bullet (listed f)
               /\ forall f', same_up_to_order f f' ->
                             listing_lines f' = head :: map bullet (listed f').
Proof.
  unfold listing_lines.
  destruct (f !! path_text output_dir) as [n|] eqn:E.
  - eexists. split; [reflexivity|]. intros f' H.
    rewrite <- (Permutation_length (same_listed f f' H)).
    specialize (H (path_text output_dir)). rewrite E in H.
    destruct (f' !! path_text output_dir); [done|by destruct n].
  - exists (u "❌ OUTPUT目录: 不存在"). unfold listed. rewrite E.
    split; [reflexivity|]. intros f' H.
    specialize (H (path_text output_dir)). rewrite E in H.
    by destruct (f' !! path_text output_dir).
Qed.

Lemma same_analysis_outcome f1 f2 :
  same_up_to_order f1 f2 ->
  analysis_outcome is_decimal f1 = analysis_outcome is_decimal f2.
Proof.
  intros H. specialize (H (path_text log_file)). unfold analysis_outcome.
  destruct (f1 !! _) as [[d1|z1 e1]|], (f2 !! _) as [[d2|z2 e2]|];
    simpl in H; try done.
  by subst.
Qed.

(** A run in the world the previous run left prints the same again. *)
Lemma run_again w res out :
  diagnose_issues is_decimal w = (res, printed w out) ->
  diagnose_issues is_decimal (printed w out)
  = (res, printed (printed w out) out).
Proof.
  rewrite !diagnose_issues_run, !fs_printed.
  set (outcome := run_outcome is_decimal (fs w)).
  assert (forall x y, printed w x = printed w y -> x = y) as Hinj.
  { intros x y E. unfold printed in E. inversion E as [E'].
    by apply app_inv_head in E'. }
  intros E.
  pose proof (f_equal fst E) as Hr; pose proof (f_equal snd E) as Hw.
  simpl in Hr, Hw. apply Hinj in Hw. by subst.
Qed.

(** C7, as amended. Two runs over file systems that hold the same files
    and directories, the entry names of the output directory being names
    that the console can encode, end the same way, and the texts they
    print are the same except for the lines of the directory entries, which
    are the same lines in the order of the respective enumeration; with the
    same enumeration order the output is identical.  A second run right
    after the first, on the file system the first run left, prints the same
    texts again. *)
Theorem run_deterministic_up_to_order w1 w2 :
  same_up_to_order (fs w1) (fs w2) ->
  names_encodable (fs w1) ->
  exists res pre post,
    let out1 := pre ++ map bullet (listed (fs w1)) ++ post in
    let out2 := pre ++ map bullet (listed (fs w2)) ++ post in
    diagnose_issues is_decimal w1 = (res, printed w1 out1)
    /\ diagnose_issues is_decimal w2 = (res, printed w2 out2)
    /\ listed (fs w1) ≡ₚ listed (fs w2)
    /\ diagnose_issues is_decimal (printed w1 out1)
       = (res, printed (printed w1 out1) out1).
Proof.
  intros H Henc.
  pose proof (same_names_encodable _ _ H Henc) as Henc'.
  assert (exists res pre post,
    diagnose_issues is_decimal w1
    = (res, printed w1 (pre ++ map bullet (listed (fs w1)) ++ post))
    /\ diagnose_issues is_decimal w2
       = (res, printed w2 (pre ++ map bullet (listed (fs w2)) ++ post)))
    as (res & pre & post & E1 & E2).
  { rewrite !diagnose_issues_run. unfold run_outcome.
    rewrite (listing_outcome_ok _ Henc), (listing_outcome_ok _ Henc').
    cbn [fst snd].
    rewrite <- (same_analysis_outcome _ _ H).
    rewrite <- (map_ext_in _ _ files_to_check
                  (fun file _ => same_artifact_line _ _ file H)).
    destruct (listing_lines_split (fs w1)) as (head & -> & Hl).
    rewrite (Hl _ H).
    set (arts := map (artifact_line (fs w1)) files_to_check).
    destruct (analysis_outcome is_decimal (fs w1)) as [[[]|e] out];
      cbn [fst snd].
    - exists (Ok tt), (banner :: arts ++ [head]), (out ++ hints).
      split; do 2 f_equal; list_norm.
    - exists (Raise e), (banner :: arts ++ [head]), out.
      split; do 2 f_equal; list_norm. }
  exists res, pre, post. cbv zeta.
  split; [exact E1|]. split; [exact E2|].
  split; [by apply same_listed|by apply run_again].
Qed.

End Claims.

(** * The analysis of the log *)

Section LogClaims.

Variable is_decimal : N -> bool.

(** C10. Every match the analysis displays, for the five categories and
    for the addresses, is a piece of one line of the log and holds no line
    feed.  [\d] must not accept the line feed, which no Unicode database
    lists as a digit. *)
Theorem reported_within_one_line content m :
  is_decimal 10 = false ->
  In m (reported is_decimal content) ->
  within_one_line content m /\ Forall (fun c => c <> 10) m.
Proof.
  intros H10 Hin.
  assert (exists r, nl_free is_decimal r = true
                    /\ In m (findall is_decimal r content))
    as (r & Hfree & Hr).
  { unfold reported, shown, shown_ips in Hin.
    apply in_app_or in Hin as [Hin|Hin].
    - apply in_concat in Hin as (ms & Hms & Hin).
      apply in_map_iff in Hms as ([label r] & <- & Hrow).
      apply In_take in Hin. exists r. split; [|exact Hin].
      simpl in Hrow.
      destruct Hrow as [E|[E|[E|[E|[E|[]]]]]]; by inversion E.
    - apply In_take in Hin. exists pat_ip. split; [|exact Hin].
      unfold pat_ip, pat_dotted, Plus. simpl. by rewrite H10. }
  destruct (findall_item is_decimal r content m Hfree Hr) as [Hs Hm].
  split; [by apply substring_within_line|exact Hm].
Qed.

(** C1, as amended. A text that holds the marker and the phrase,
    [💾 已写入 5 个住宅IP], has at least one match of the pattern of the
    written files.  For every text the matches are the non-overlapping
    occurrences of the pattern from left to right, each the shortest at its
    place, and the number the report prints is their number. *)
Theorem written_pattern_counts content :
  (substring (u "💾 已写入 5 个住宅IP") content ->
   exists m ms, findall is_decimal pat_written content = m :: ms)
  /\ occurrences is_decimal pat_written content
       (findall is_decimal pat_written content)
  /\ (forall ms,
        occurrences is_decimal pat_written content ms ->
        ms = findall is_decimal pat_written content
        /\ pattern_block is_decimal content (u "文件写入", pat_written)
           = match ms with
             | [] => [not_found_line (u "文件写入")]
             | _ => found_line (u "文件写入") (N.of_nat (length ms))
                    :: map bullet (take 3 ms)
             end).
Proof.
  assert (nullable pat_written = false) as Hn by reflexivity.
  assert (has_group pat_written = false) as Hg by reflexivity.
  pose proof (lazy_shortest is_decimal (u "💾 已写入") Dot (u "个住宅IP"))
    as Hs.
  split; [|split].
  - intros Hsub.
    assert (occurs is_decimal pat_written content) as Ho.
    { exists (u "💾 已写入 5 个住宅IP"). split; [exact Hsub|].
      change (u "💾 已写入 5 个住宅IP")
        with ((u "💾 已写入" ++ u " 5 ") ++ u "个住宅IP").
      unfold pat_written. repeat apply lang_seq; try apply lang_lit_intro.
      constructor. by repeat constructor. }
    destruct (findall is_decimal pat_written content) as [|m ms] eqn:E;
      [|eauto].
    by apply (findall_nil_iff is_decimal _ content Hn) in E.
  - by apply findall_occurrences.
  - intros ms Hocc.
    apply (occurrences_findall is_decimal pat_written Hn Hg Hs) in Hocc.
    subst ms. split; [done|].
    unfold pattern_block, shown. simpl fst. simpl snd.
    by destruct (findall is_decimal pat_written content).
Qed.

End LogClaims.

(** * The search for addresses *)

Section AddressFacts.

Variable is_decimal : N -> bool.

Local Abbreviation mem := (cset_mem is_decimal).
Local Abbreviation accepted cs := (Forall (fun c => mem cs c = true)).

Lemma mt_seq r1 r2 s g k :
  mt is_decimal (Seq r1 r2) s g k
  = mt is_decimal r1 s g (fun s' g' => mt is_decimal r2 s' g' k).
Proof. reflexivity. Qed.

Lemma mt_chr c s g k : mt is_decimal (One (Chr c)) (c :: s) g k = k s g.
Proof. simpl. by rewrite N.eqb_refl. Qed.

(** A greedy run takes all of [ds] when the next code point is not in the
    class and the rest of the pattern succeeds from there. *)
Lemma star_greedy_all cs ds t k x :
  accepted cs ds ->
  match t with c :: _ => mem cs c = false | [] => True end ->
  k t = Some x ->
  star_greedy is_decimal cs (ds ++ t) k = Some x.
Proof.
  intros Hds Ht Hk. induction Hds as [|c ds Hc Hds IH]; simpl.
  - destruct t as [|c t]; [done|]. simpl. by rewrite Ht.
  - by rewrite Hc, IH.
Qed.

Lemma plus_digits ds t g k x :
  ds <> [] -> accepted Digit ds -> no_digit_ahead is_decimal t ->
  k t g = Some x ->
  mt is_decimal (Plus Digit) (ds ++ t) g k = Some x.
Proof.
  intros Hne Hds Ht Hk. destruct Hds as [|c ds Hc Hds]; [done|].
  simpl. simpl in Hc. rewrite Hc.
  by apply (star_greedy_all Digit ds t (fun s' => k s' g)).
Qed.

(** The pattern of the address matches a dotted quad that no digit
    follows. *)
Lemma dotted_match a b c d t g k x :
  a <> [] -> b <> [] -> c <> [] -> d <> [] ->
  accepted Digit a -> accepted Digit b ->
  accepted Digit c -> accepted Digit d ->
  is_decimal 46 = false ->
  no_digit_ahead is_decimal t ->
  k t g = Some x ->
  mt is_decimal pat_dotted (dotted_quad a b c d ++ t) g k = Some x.
Proof.
  intros Ha Hb Hc Hd Da Db Dc Dd Hdot Ht Hk.
  unfold pat_dotted, dotted_quad. do 6 rewrite mt_seq.
  rewrite <- app_assoc. apply plus_digits; [done..|].
  rewrite <- app_comm_cons, mt_chr.
  rewrite <- app_assoc. apply plus_digits; [done..|].
  rewrite <- app_comm_cons, mt_chr.
  rewrite <- app_assoc. apply plus_digits; [done..|].
  rewrite <- app_comm_cons, mt_chr.
  by apply plus_digits.
Qed.

Lemma dotted_fail c s g k :
  is_decimal c = false -> mt is_decimal (Group pat_dotted) (c :: s) g k = None.
Proof. intros H. simpl. by rewrite H. Qed.

(** A lazy run passes over [junk] when the rest of the pattern fails
    everywhere in it and succeeds right after it. *)
Lemma star_lazy_skip cs junk rest k x :
  accepted cs junk ->
  (forall j1 c j2, junk = j1 ++ c :: j2 -> k (c :: j2 ++ rest) = None) ->
  k rest = Some x ->
  star_lazy is_decimal cs (junk ++ rest) k = Some x.
Proof.
  intros Hj. induction Hj as [|c junk Hc Hj IH]; intros Hfail Hk;
    rewrite star_lazy_unfold; simpl.
  - by rewrite Hk.
  - rewrite (Hfail [] c junk eq_refl), Hc. apply IH; [|done].
    intros j1 c' j2 ->. by apply (Hfail (c :: j1) c' j2).
Qed.

(** The marker, some text without digits or line feeds, a dotted quad. *)
Lemma ip_match junk a b c d t :
  Forall (fun x => x <> 10 /\ is_decimal x = false) junk ->
  a <> [] -> b <> [] -> c <> [] -> d <> [] ->
  accepted Digit a -> accepted Digit b ->
  accepted Digit c -> accepted Digit d ->
  is_decimal 46 = false ->
  no_digit_ahead is_decimal t ->
  match_here is_decimal pat_ip
    ((u "🏠 住宅IP" ++ junk ++ dotted_quad a b c d) ++ t)
  = Some (length (u "🏠 住宅IP" ++ junk ++ dotted_quad a b c d),
          dotted_quad a b c d).
Proof.
  intros Hj Ha Hb Hc Hd Da Db Dc Dd Hdot Ht.
  set (q := dotted_quad a b c d).
  set (s := (u "🏠 住宅IP" ++ junk ++ q) ++ t).
  assert (mt is_decimal pat_ip s None (fun s' g => Some (s', g))
          = Some (t, Some q)) as E.
  { unfold pat_ip, s. rewrite !mt_seq, <- !app_assoc, mt_lit_app.
    change (mt is_decimal (Star false Dot) (junk ++ q ++ t) None ?k)
      with (star_lazy is_decimal Dot (junk ++ q ++ t)
              (fun s' => k s' None)).
    apply star_lazy_skip.
    - eapply Forall_impl; [exact Hj|]. simpl. intros x [Hx _].
      apply N.eqb_neq in Hx. by rewrite Hx.
    - intros j1 x j2 ->. apply dotted_fail.
      apply Forall_app in Hj as [_ Hj]. by inversion Hj as [|? ? [_ ?]].
    - change (mt is_decimal (Group pat_dotted) (q ++ t) None ?k)
        with (mt is_decimal pat_dotted (q ++ t) None
                (fun s' _ => k s' (Some (take (length (q ++ t) - length s')
                                              (q ++ t))))).
      apply dotted_match; try done.
      by rewrite length_app, Nat.add_sub, take_app_length. }
  unfold match_here. rewrite E. unfold s.
  rewrite length_app, Nat.add_sub. reflexivity.
Qed.

(** A match of the sixth pattern starts with the marker. *)
Lemma match_here_marker s x :
  match_here is_decimal pat_ip s = Some x -> exists t, s = ip_marker ++ t.
Proof.
  unfold match_here, pat_ip. rewrite !mt_seq. intros H.
  destruct (mt is_decimal (Lit (u "🏠 住宅IP")) s None _) as [y|] eqn:E;
    [|discriminate].
  apply mt_lit_sound in E as (t & -> & _). by exists t.
Qed.

(** The scan passes over a text without the marker, when what follows is
    the end of the text or a house: the marker cannot begin in the one and
    end in the other, since no house stands inside it. *)
Lemma scan_no_marker pre rest :
  ~ substring ip_marker pre ->
  rest = [] \/ (exists rest', rest = house :: rest') ->
  scan is_decimal pat_ip (pre ++ rest) 0 = scan is_decimal pat_ip rest 0.
Proof.
  intros Hsub Hrest. induction pre as [|c pre IH]; [reflexivity|].
  simpl app. rewrite scan_miss.
  - apply IH. intros (a & b & ->). apply Hsub. by exists (c :: a), b.
  - destruct (match_here is_decimal pat_ip (c :: pre ++ rest))
      as [x|] eqn:E; [|reflexivity].
    exfalso. apply match_here_marker in E as [t Et].
    change ip_marker with [house; 32; 20303; 23429; 73; 80] in *.
    destruct pre as [|c2 [|c3 [|c4 [|c5 [|c6 pre]]]]];
      try (destruct Hrest as [->|[rest' ->]]; simpl in Et;
           inversion Et; fail).
    simpl in Et. inversion Et; subst.
    apply Hsub. by exists [], pre.
Qed.

End AddressFacts.

Section AddressClaims.

Variable is_decimal : N -> bool.

(** Replaces the literals of the goal by their code points. *)
Ltac eval_literals :=
  repeat match goal with
         | |- context [u ?s] =>
           let v := eval vm_compute in (u s) in change (u s) with v
         end.

(** Closes the side conditions on concrete ASCII text. *)
Ltac ascii_side H :=
  eval_literals;
  repeat match goal with
         | |- Forall _ (_ :: _) => constructor
         | |- Forall _ [] => constructor
         | |- _ /\ _ => split
         | |- cset_mem _ Digit _ = _ => simpl
         | |- is_decimal _ = _ => rewrite H by reflexivity; reflexivity
         | |- _ <> _ => discriminate
         end.

(** C2, as amended. In a log with the marker followed by 203.0.113.7
    and, later, the marker followed by 198.51.100.9, where the text before,
    between and after the two holds no further marker and the code point
    right after each address is not a digit, the search extracts exactly
    these two addresses, in this order.  For every log the extracted texts
    lie in the text one after the other, and the step prints nothing when
    nothing was extracted, and otherwise the heading and the first five
    addresses at most, in that order. *)
Theorem ip_extraction pre mid post :
  sound_digits is_decimal ->
  ~ substring ip_marker pre -> ~ substring ip_marker mid ->
  ~ substring ip_marker post ->
  no_digit_ahead is_decimal mid -> no_digit_ahead is_decimal post ->
  findall is_decimal pat_ip
    (pre ++ u "🏠 住宅IP: 203.0.113.7" ++ mid
         ++ u "🏠 住宅IP: 198.51.100.9" ++ post)
  = [u "203.0.113.7"; u "198.51.100.9"]
  /\ (forall content w,
        exists ms,
          findall is_decimal pat_ip content = ms
          /\ pieces_in_order content ms
          /\ (length (take 5 ms) <= 5)%nat
          /\ (Forall scalar_value content ->
              report_ips is_decimal content w
              = (Ok tt,
                 printed w (match ms with
                            | [] => []
                            | _ => ip_heading :: map bullet (take 5 ms)
                            end)))).
Proof.
  intros [Hascii Hhouse] Hpre Hmid Hpost Dmid Dpost. split.
  - unfold findall.
    change (u "🏠 住宅IP: 203.0.113.7")
      with (u "🏠 住宅IP" ++ u ": "
              ++ dotted_quad (u "203") (u "0") (u "113") (u "7")).
    change (u "🏠 住宅IP: 198.51.100.9")
      with (u "🏠 住宅IP" ++ u ": "
              ++ dotted_quad (u "198") (u "51") (u "100") (u "9")).
    rewrite scan_no_marker; [|done|right; eexists; reflexivity].
    rewrite (scan_hit is_decimal pat_ip _ _
               (dotted_quad (u "203") (u "0") (u "113") (u "7"))).
    2: { eval_literals. discriminate. }
    2: { apply ip_match; try (ascii_side Hascii; fail).
         destruct mid; [exact Hhouse|exact Dmid]. }
    rewrite scan_no_marker; [|done|right; eexists; reflexivity].
    rewrite (scan_hit is_decimal pat_ip _ _
               (dotted_quad (u "198") (u "51") (u "100") (u "9"))).
    2: { eval_literals. discriminate. }
    2: { apply ip_match; try (ascii_side Hascii; fail). exact Dpost. }
    rewrite <- (app_nil_r post), scan_no_marker; [reflexivity|done|by left].
  - intros content w. exists (findall is_decimal pat_ip content).
    split; [done|]. split; [apply findall_in_order|].
    split; [rewrite length_take; lia|].
    intros Hc. rewrite report_ips_run by (by apply encodable_Forall).
    unfold ip_block, shown_ips.
    by destruct (findall is_decimal pat_ip content).
Qed.

End AddressClaims.

(** * The claims on concrete worlds *)

(** C1, the claim as first stated, fails: the phrase without the marker
    [💾] in front is in the text, and the pattern has no match. *)
Lemma written_needs_marker :
  substring (u "已写入 5 个住宅IP") (u "已写入 5 个住宅IP 到文件")
  /\ findall ascii_digit pat_written (u "已写入 5 个住宅IP 到文件") = []
  /\ pattern_block ascii_digit (u "已写入 5 个住宅IP 到文件")
       (u "文件写入", pat_written)
     = [not_found_line (u "文件写入")].
Proof.
  split; [by exists [], (u " 到文件")|]. split; vm_compute; reflexivity.
Qed.

Lemma written_pattern_counts_witness :
  substring (u "💾 已写入 5 个住宅IP") (u "x 💾 已写入 5 个住宅IP y")
  /\ exists m ms,
      findall ascii_digit pat_written (u "x 💾 已写入 5 个住宅IP y") = m :: ms.
Proof.
  assert (substring (u "💾 已写入 5 个住宅IP") (u "x 💾 已写入 5 个住宅IP y"))
    as H by (by exists (u "x "), (u " y")).
  split; [exact H|].
  exact (proj1 (written_pattern_counts ascii_digit
                  (u "x 💾 已写入 5 个住宅IP y")) H).
Defined.

Lemma ascii_digits_sound : sound_digits ascii_digit.
Proof. by split. Qed.

(** C2, the claim as first stated, fails.  Each of the two texts holds
    the marker with 203.0.113.7 and, later, the marker with 198.51.100.9.
    In the first a digit follows the first address, and another address is
    extracted; in the second a third marker follows, and three addresses
    are extracted. *)
Lemma two_addresses_not_extracted :
  (substring (u "🏠 住宅IP: 203.0.113.7")
     ([] ++ u "🏠 住宅IP: 203.0.113.7" ++ (u "0" ++ nl)
         ++ u "🏠 住宅IP: 198.51.100.9" ++ [])
   /\ findall ascii_digit pat_ip
        ([] ++ u "🏠 住宅IP: 203.0.113.7" ++ (u "0" ++ nl)
            ++ u "🏠 住宅IP: 198.51.100.9" ++ [])
      = [u "203.0.113.70"; u "198.51.100.9"]
   /\ [u "203.0.113.70"; u "198.51.100.9"]
      <> [u "203.0.113.7"; u "198.51.100.9"])
  /\ (findall ascii_digit pat_ip
        ([] ++ u "🏠 住宅IP: 203.0.113.7" ++ nl
            ++ u "🏠 住宅IP: 198.51.100.9"
            ++ (nl ++ u "🏠 住宅IP: 192.0.2.1"))
      = [u "203.0.113.7"; u "198.51.100.9"; u "192.0.2.1"]
      /\ [u "203.0.113.7"; u "198.51.100.9"; u "192.0.2.1"]
         <> [u "203.0.113.7"; u "198.51.100.9"]).
Proof.
  split.
  - split; [by eexists [], _|]. split; [vm_compute; reflexivity|].
    vm_compute. discriminate.
  - split; [vm_compute; reflexivity|discriminate].
Qed.

Lemma contains_substring p s : substring p s -> contains p s = true.
Proof.
  assert (forall t, contains p t
                    = bool_decide (take (length p) t = p)
                      || match t with
                         | [] => false
                         | _ :: t' => contains p t'
                         end) as Hunfold by (by intros []).
  intros (a & b & ->). induction a as [|c a IH]; rewrite Hunfold.
  - simpl app. by rewrite take_app_length, bool_decide_true.
  - rewrite <- app_comm_cons, IH. apply orb_true_r.
Qed.

Lemma marker_absent s : contains ip_marker s = false -> ~ substring ip_marker s.
Proof. intros H Hs. apply contains_substring in Hs. congruence. Qed.

Lemma ip_extraction_witness :
  findall ascii_digit pat_ip
    ((u "🏠 发现 2 个住宅IP" ++ nl) ++ u "🏠 住宅IP: 203.0.113.7"
       ++ (nl ++ u "next:") ++ u "🏠 住宅IP: 198.51.100.9" ++ nl)
  = [u "203.0.113.7"; u "198.51.100.9"].
Proof.
  apply (ip_extraction ascii_digit (u "🏠 发现 2 个住宅IP" ++ nl)
           (nl ++ u "next:") nl).
  - exact ascii_digits_sound.
  - apply marker_absent. vm_compute. reflexivity.
  - apply marker_absent. vm_compute. reflexivity.
  - apply marker_absent. vm_compute. reflexivity.
  - reflexivity.
  - reflexivity.
Defined.

Lemma analyze_log_missing_witness :
  fs empty_world !! path_text log_file = None
  /\ analyze_log ascii_digit empty_world
     = (Ok tt, printed empty_world [no_log_line]).
Proof.
  split; [reflexivity|].
  apply (analyze_log_missing ascii_digit empty_world). reflexivity.
Defined.



Lemma check_artifacts_reports_witness :
  check_artifacts (World demo_fs [])
  = (Ok tt,
     printed (World demo_fs [])
       (map (artifact_line demo_fs) files_to_check)).
Proof. exact (proj1 (check_artifacts_reports (World demo_fs []))). Defined.

Lemma listing_worlds_same :
  same_up_to_order (fs listing_world) (fs listing_world').
Proof.
  intros p. unfold listing_world, listing_world'. simpl fs.
  destruct (decide (p = path_text output_dir)) as [->|Hne].
  - rewrite !lookup_singleton_eq. simpl. split; [done|].
    etrans; [apply perm_skip, perm_swap|apply perm_swap].
  - by rewrite !lookup_singleton_ne.
Qed.

Lemma listing_names_encodable : names_encodable (fs listing_world).
Proof.
  unfold names_encodable, listed, listing_world. simpl fs.
  rewrite lookup_singleton_eq. by repeat constructor.
Qed.

Lemma odd_name_worlds_same :
  same_up_to_order (fs odd_name_world) (fs odd_name_world').
Proof.
  intros p. unfold odd_name_world, odd_name_world'. simpl fs.
  destruct (decide (p = path_text output_dir)) as [->|Hne].
  - rewrite !lookup_singleton_eq. simpl. split; [done|]. apply perm_swap.
  - by rewrite !lookup_singleton_ne.
Qed.

(** C7, the claim as first stated, fails: the two worlds hold the same
    directory and differ in the order of its enumeration only, and the
    line of [a.txt] is printed in the one run and not in the other, because
    the runs stop at the name that cannot be encoded. *)
Lemma runs_differ_by_more_than_order :
  same_up_to_order (fs odd_name_world) (fs odd_name_world')
  /\ diagnose_issues ascii_digit odd_name_world
     = (Raise UnicodeEncodeError,
        printed odd_name_world
          [ banner;
            u "❌ ip-checker-debug.exe: 不存在";
            u "❌ GeoLite2-Country.mmdb: 不存在";
            u "❌ config.ini: 不存在";
            listing_head 3;
            bullet (u "a.txt") ])
  /\ diagnose_issues ascii_digit odd_name_world'
     = (Raise UnicodeEncodeError,
        printed odd_name_world'
          [ banner;
            u "❌ ip-checker-debug.exe: 不存在";
            u "❌ GeoLite2-Country.mmdb: 不存在";
            u "❌ config.ini: 不存在";
            listing_head 3 ])
  /\ ~ stdout (snd (diagnose_issues ascii_digit odd_name_world))
       ≡ₚ stdout (snd (diagnose_issues ascii_digit odd_name_world')).
Proof.
  split; [exact odd_name_worlds_same|].
  split; [vm_compute; reflexivity|]. split; [vm_compute; reflexivity|].
  intros H. apply Permutation_length in H. vm_compute in H. discriminate.
Qed.

Lemma run_deterministic_up_to_order_witness :
  exists res pre post,
    let out1 := pre ++ map bullet (listed (fs listing_world)) ++ post in
    let out2 := pre ++ map bullet (listed (fs listing_world')) ++ post in
    diagnose_issues ascii_digit listing_world
    = (res, printed listing_world out1)
    /\ diagnose_issues ascii_digit listing_world'
       = (res, printed listing_world' out2)
    /\ listed (fs listing_world) ≡ₚ listed (fs listing_world')
    /\ diagnose_issues ascii_digit (printed listing_world out1)
       = (res, printed (printed listing_world out1) out1).
Proof.
  exact (run_deterministic_up_to_order ascii_digit listing_world
           listing_world' listing_worlds_same listing_names_encodable).
Defined.





Lemma reported_within_one_line_witness :
  within_one_line (u "a GeoIP 未加载 b") (u "GeoIP 未加载")
  /\ Forall (fun c => c <> 10) (u "GeoIP 未加载").
Proof.
  apply (reported_within_one_line ascii_digit (u "a GeoIP 未加载 b")).
  - reflexivity.
  - vm_compute. auto 10.
Defined.

(** * Further properties of the run *)

Section RunFacts.

Variable is_decimal : N -> bool.






(** X2. When the path of the output directory leads to a regular file, the
    listing reports a directory that exists and holds 0 entries, and lists
    nothing: [exists()] does not ask for a directory and [glob] yields
    nothing for a file. *)
Theorem listing_of_a_regular_file w data :
  fs w !! path_text output_dir = Some (File data) ->
  list_output w = (Ok tt, printed w [listing_head 0]).
Proof.
  intros H. rewrite list_output_run. unfold listing_outcome, listed.
  by rewrite H.
Qed.

Lemma pattern_block_length content row :
  (1 <= length (pattern_block is_decimal content row) <= 4)%nat.
Proof.
  unfold pattern_block, shown.
  destruct (findall is_decimal (snd row) content) as [|m ms] eqn:E.
  - simpl. lia.
  - change (length (?x :: ?l)) with (S (length l)).
    rewrite length_map, length_take. lia.
Qed.

Lemma ip_block_length content :
  (length (ip_block is_decimal content) <= 6)%nat.
Proof.
  unfold ip_block, shown_ips.
  destruct (findall is_decimal pat_ip content) as [|m ms] eqn:E.
  - simpl. lia.
  - change (length (?x :: ?l)) with (S (length l)).
    rewrite length_map, length_take. lia.
Qed.

(** X3. However long the log is, the analysis of a log that can be read
    prints at least 6 and at most 27 texts: the heading, one to four per
    category, and at most six for the addresses. *)
Theorem analysis_output_is_bounded w content :
  log_text (fs w) = Some content ->
  exists out,
    analyze_log is_decimal w = (Ok tt, printed w out)
    /\ (6 <= length out <= 27)%nat.
Proof.
  intros H. rewrite analyze_log_run.
  unfold log_text in H. unfold analysis_outcome.
  destruct (fs w !! path_text log_file) as [[data|size entries]|];
    try done.
  destruct (Utf8.decode (map Byte.to_N data)) as [s|]; [|done].
  simpl in H. inversion H; subst content; clear H. simpl fst. simpl snd.
  eexists. split; [reflexivity|].
  unfold analysis_lines, patterns. simpl concat.
  change (length (?x :: ?l)) with (S (length l)).
  rewrite !length_app. change (length (@nil pystr)) with 0%nat.
  pose proof (pattern_block_length (universal_newlines s)
                (u "住宅IP发现", pat_found)).
  pose proof (pattern_block_length (universal_newlines s)
                (u "文件写入", pat_written)).
  pose proof (pattern_block_length (universal_newlines s)
                (u "文件删除", pat_deleted)).
  pose proof (pattern_block_length (universal_newlines s)
                (u "GeoIP错误", pat_geoip)).
  pose proof (pattern_block_length (universal_newlines s)
                (u "国家代码", pat_country)).
  pose proof (ip_block_length (universal_newlines s)).
  lia.
Qed.

End RunFacts.

(** * Further properties of the numerals and of the text that is read *)

Section TextFacts.

Variable is_decimal : N -> bool.

Lemma digits_of_range d : Forall (fun c => 48 <= c <= 57) (digits_of d).
Proof. induction d; simpl; constructor; auto; lia. Qed.

Lemma filter_all {A} (P : A -> Prop) `{!forall x, Decision (P x)} l :
  Forall P l -> filter P l = l.
Proof.
  induction 1 as [|x l Hx Hl IH]; [done|].
  by rewrite filter_cons_True, IH.
Qed.

Lemma grouped_strip ds out :
  grouped ds out -> Forall (fun c => c <> 44) ds ->
  filter (fun c => c <> 44) out = ds.
Proof.
  induction 1 as [ds Hlen|ds out a b c Hg IH]; intros Hds.
  - by apply filter_all.
  - apply Forall_app in Hds as [Hds Habc].
    rewrite filter_app, IH by done.
    rewrite filter_cons_False by (intros H; by apply H).
    by rewrite (filter_all _ [a; b; c]).
Qed.

(** X4. The size printed with thousands separators reads back: without the
    commas it is a decimal numeral whose value is the size.  So different
    sizes are printed differently. *)
Theorem fmt_thousands_reads_back n :
  value_of (filter (fun c => c <> 44) (fmt_thousands n)) = Some n
  /\ forall m, fmt_thousands n = fmt_thousands m -> n = m.
Proof.
  assert (forall k, value_of (filter (fun c => c <> 44) (fmt_thousands k))
                    = Some k) as Hback.
  { intros k. rewrite (grouped_strip (str_of_N k)).
    - apply value_of_str_of_N.
    - apply fmt_thousands_grouped.
    - eapply Forall_impl; [apply digits_of_range|]. simpl. lia. }
  split; [apply Hback|]. intros m E.
  pose proof (Hback n) as Hn. rewrite E, Hback in Hn. by inversion Hn.
Qed.

Lemma universal_newlines_no_cr n : forall s,
  (length s <= n)%nat -> Forall (fun c => c <> 13) (universal_newlines s).
Proof.
  induction n as [|n IH]; intros s Hlen.
  - destruct s; [constructor|simpl in Hlen; lia].
  - destruct s as [|c t]; simpl; [constructor|].
    simpl in Hlen. destruct (c =? 13) eqn:E.
    + constructor; [done|]. destruct t as [|d t']; [constructor|].
      simpl in Hlen. destruct (d =? 10); apply IH; simpl; lia.
    + constructor; [by apply N.eqb_neq in E|]. apply IH. lia.
Qed.

(** Every displayed match was found by one of the six searches. *)
Lemma reported_found content m :
  In m (reported is_decimal content) ->
  exists r, In m (findall is_decimal r content).
Proof.
  unfold reported, shown, shown_ips. intros Hin.
  apply in_app_or in Hin as [Hin|Hin].
  - apply in_concat in Hin as (ms & Hms & Hin).
    apply in_map_iff in Hms as ([label r] & <- & _).
    apply In_take in Hin. eauto.
  - apply In_take in Hin. eauto.
Qed.

(** X5. The text of the log that reaches the patterns holds no carriage
    return, since the log is opened in text mode; so no displayed match
    holds one either, also for a log with the line ends of Windows. *)
Theorem no_carriage_return w content :
  log_text (fs w) = Some content ->
  Forall (fun c => c <> 13) content
  /\ forall m, In m (reported is_decimal content) ->
               Forall (fun c => c <> 13) m.
Proof.
  intros H.
  assert (Forall (fun c => c <> 13) content) as Hc.
  { unfold log_text in H.
    destruct (fs w !! path_text log_file) as [[data|size entries]|];
      try done.
    destruct (Utf8.decode (map Byte.to_N data)) as [s|]; [|done].
    simpl in H. inversion H. by apply (universal_newlines_no_cr (length s)). }
  split; [exact Hc|]. intros m Hm.
  apply reported_found in Hm as (r & Hm).
  apply (substring_Forall _ m content); [|exact Hc].
  eapply pieces_substring; [apply findall_in_order|exact Hm].
Qed.

End TextFacts.

Section QuietLog.

Variable is_decimal : N -> bool.

(** A pattern all of whose words begin with one of the [starts] finds
    nothing in a text that holds none of them. *)
Lemma findall_needs_start r (starts : list N) content :
  (forall w, lang is_decimal r w ->
             exists c w', w = c :: w' /\ In c starts) ->
  Forall (fun c => ~ In c starts) content ->
  findall is_decimal r content = [].
Proof.
  intros Hhead Hc. apply scan_no_occurrence.
  intros (w & Hsub & L). destruct (Hhead w L) as (c & w' & -> & Hin).
  apply (substring_Forall _ _ _ Hsub) in Hc.
  by inversion Hc.
Qed.

Lemma lang_lit_head c0 l r2 r3 w :
  lang is_decimal (One (Chr c0) · l · r2 · r3) w -> exists w', w = c0 :: w'.
Proof.
  intros L.
  inversion L as [| | |? ? w12 w3 L12 L3| | |]; subst.
  inversion L12 as [| | |? ? w1 w2 L1 L2| | |]; subst.
  inversion L1 as [| | |? ? w0 w4 L0 L4| | |]; subst.
  inversion L0 as [|? c Hc| | | | |]; subst. simpl in Hc.
  apply N.eqb_eq in Hc as ->. simpl. eauto.
Qed.

(** Replaces the literals of the goal by their code points. *)
Ltac eval_literals :=
  repeat match goal with
         | |- context [u ?s] =>
           let v := eval vm_compute in (u s) in change (u s) with v
         | H : context [u ?s] |- _ =>
           let v := eval vm_compute in (u s) in change (u s) with v in H
         end.

Lemma patterns_start r :
  In r [pat_found; pat_written; pat_deleted; pat_geoip; pat_country; pat_ip] ->
  forall w, lang is_decimal r w ->
            exists c w', w = c :: w' /\ In c pattern_starts.
Proof.
  intros Hr w L. unfold pattern_starts.
  destruct Hr as [<-|[<-|[<-|[<-|[<-|[<-|[]]]]]]].
  - unfold pat_found in L. eval_literals. simpl in L.
    apply lang_lit_head in L as [w' ->]. eexists _, _. split; [done|].
    simpl. auto.
  - unfold pat_written in L. eval_literals. simpl in L.
    apply lang_lit_head in L as [w' ->]. eexists _, _. split; [done|].
    simpl. auto.
  - unfold pat_deleted in L. eval_literals. simpl in L.
    apply lang_lit_head in L as [w' ->]. eexists _, _. split; [done|].
    simpl. auto.
  - unfold pat_geoip in L. eval_literals. simpl in L.
    inversion L as [| | | |? ? ? L1|? ? ? L2|]; subst.
    + apply lang_lit_head in L1 as [w' ->]. eexists _, _. split; [done|].
      simpl. auto 10.
    + apply lang_lit_head in L2 as [w' ->]. eexists _, _. split; [done|].
      simpl. auto 10.
  - unfold pat_country in L. eval_literals. simpl in L.
    apply lang_lit_head in L as [w' ->]. eexists _, _. split; [done|].
    simpl. auto 10.
  - unfold pat_ip in L. eval_literals. simpl in L.
    apply lang_lit_head in L as [w' ->]. eexists _, _. split; [done|].
    simpl. auto.
Qed.

(** X6. A log that can be read and holds none of the code points with
    which the patterns start, the empty log among them, gets the heading
    and the five lines that say nothing was found, and nothing about
    addresses. *)
Theorem quiet_log w content :
  log_text (fs w) = Some content ->
  Forall (fun c => ~ In c pattern_starts) content ->
  analyze_log is_decimal w
  = (Ok tt,
     printed w (analysis_heading
                :: map not_found_line (map fst patterns))).
Proof.
  intros H Hquiet. rewrite analyze_log_run.
  unfold log_text in H. unfold analysis_outcome.
  destruct (fs w !! path_text log_file) as [[data|size entries]|];
    try done.
  destruct (Utf8.decode (map Byte.to_N data)) as [s|]; [|done].
  simpl in H. inversion H as [Hs]. rewrite Hs. simpl fst. simpl snd.
  assert (forall r,
    In r [pat_found; pat_written; pat_deleted; pat_geoip; pat_country;
          pat_ip] ->
    findall is_decimal r content = []) as Hnone.
  { intros r Hr. apply (findall_needs_start r pattern_starts); [|done].
    by apply patterns_start. }
  unfold analysis_lines, ip_block, patterns, pattern_block. simpl map.
  simpl fst. simpl snd.
  rewrite !Hnone by (simpl; auto 10). reflexivity.
Qed.

End QuietLog.

Section DecodeFacts.

Lemma decode_ascii bs :
  Forall (fun b => b < 128) bs -> Utf8.decode bs = Some bs.
Proof.
  induction 1 as [|b bs Hb Hbs IH]; [done|].
  cbn [Utf8.decode]. apply N.ltb_lt in Hb. by rewrite Hb, IH.
Qed.

(** X7. The text read from the log consists of Unicode scalar values:
    reading never yields a surrogate or a code point beyond U+10FFFF.  A
    log in plain ASCII is read byte for byte, line ends apart. *)
Theorem log_text_is_well_formed w :
  (forall content,
      log_text (fs w) = Some content -> Forall scalar_value content)
  /\ (forall data,
        fs w !! path_text log_file = Some (File data) ->
        Forall (fun b => Byte.to_N b < 128) data ->
        log_text (fs w) = Some (universal_newlines (map Byte.to_N data))).
Proof.
  split.
  - intros content H. unfold log_text in H.
    destruct (fs w !! path_text log_file) as [[data|size entries]|];
      try done.
    destruct (Utf8.decode (map Byte.to_N data)) as [s|] eqn:E; [|done].
    simpl in H. inversion H.
    apply (universal_newlines_keeps scalar_value (length s)); [lia|..].
    + unfold scalar_value. lia.
    + apply (decode_scalar_aux (length (map Byte.to_N data))
               (map Byte.to_N data) s); [lia|done].
  - intros data H Hascii. unfold log_text. rewrite H.
    rewrite decode_ascii; [done|]. by apply Forall_map.
Qed.

End DecodeFacts.

(** * Further properties of the matches *)

Section MatchFacts.

Variable is_decimal : N -> bool.

Local Abbreviation mem := (cset_mem is_decimal).
Local Abbreviation accepted cs := (Forall (fun c => mem cs c = true)).

(** Where a reported item was matched. *)
Lemma scan_items_at r : forall s skip m,
  In m (scan is_decimal r s skip) ->
  exists pre w t,
    s = pre ++ w ++ t
    /\ match_here is_decimal r (w ++ t) = Some (length w, m).
Proof.
  induction s as [|c s IH]; intros skip m H; [done|].
  assert (forall j, In m (scan is_decimal r s j) ->
            exists pre w t,
              c :: s = pre ++ w ++ t
              /\ match_here is_decimal r (w ++ t) = Some (length w, m))
    as Hlater.
  { intros j Hj. destruct (IH j m Hj) as (pre & w & t & -> & E).
    by exists (c :: pre), w, t. }
  destruct skip as [|j]; [|by apply (Hlater j)].
  simpl in H.
  destruct (match_here is_decimal r (c :: s)) as [[n item]|] eqn:E;
    [|by apply (Hlater 0%nat)].
  destruct H as [->|H]; [|by apply (Hlater (n - 1)%nat)].
  pose proof E as E'.
  apply match_here_sound in E' as (w & t & Es & -> & _).
  exists [], w, t. by rewrite <- Es.
Qed.

Lemma accepted_dot x : accepted Dot x -> Forall (fun c => c <> 10) x.
Proof.
  intros H. eapply Forall_impl; [exact H|]. simpl.
  intros c Hc ->. done.
Qed.

Lemma has_group_lit p : has_group (Lit p) = false.
Proof. induction p as [|c p IH]; simpl; auto. Qed.

(** The anatomy of a match of a literal, a lazy run and a literal. *)
Lemma lazy_match_anatomy p q s n m :
  match_here is_decimal (Lit p · Star false Dot · Lit q) s = Some (n, m) ->
  bracketed p q m.
Proof.
  unfold match_here. simpl. intros H.
  destruct (mt is_decimal (Lit p) _ _ _) as [[s' g]|] eqn:E; [|discriminate].
  inversion H; subst n m; clear H.
  apply mt_lit_sound in E as (s1 & -> & E).
  apply star_lazy_sound in E as (d & s2 & -> & Hd & E & Hmin).
  apply mt_lit_sound in E as (s3 & -> & E). inversion E; subst s' g; clear E.
  exists d. split; [|split].
  - rewrite !length_app.
    replace (length p + (length d + (length q + length s3)) - length s3)%nat
      with (length (p ++ d ++ q)) by (rewrite !length_app; lia).
    rewrite !has_group_lit. simpl.
    replace (p ++ d ++ q ++ s3) with ((p ++ d ++ q) ++ s3)
      by (by rewrite <- !app_assoc).
    by rewrite take_app_length.
  - by apply accepted_dot.
  - intros i Hi Eq. specialize (Hmin i Hi).
    assert (drop i (d ++ q ++ s3) = q ++ drop (length q) (drop i (d ++ q))
                                      ++ s3) as Ed.
    { rewrite (app_assoc d q s3), drop_app_le by (rewrite length_app; lia).
      rewrite <- (take_drop (length q) (drop i (d ++ q))) at 1.
      by rewrite Eq, <- app_assoc. }
    rewrite Ed, mt_lit_app in Hmin. discriminate.
Qed.

(** X8. Every match found for the first three categories begins with the
    marker of its category and ends with its closing phrase; in between
    there is no line feed, and the closing phrase does not start before the
    place where the match ends: a match stops at the first closing phrase
    after its marker. *)
Theorem lazy_matches_are_bracketed content m :
  (In m (findall is_decimal pat_found content) ->
   bracketed (u "🏠 发现") (u "个住宅IP") m)
  /\ (In m (findall is_decimal pat_written content) ->
      bracketed (u "💾 已写入") (u "个住宅IP") m)
  /\ (In m (findall is_decimal pat_deleted content) ->
      bracketed (u "🗑️ 已删除") (u "住宅") m).
Proof.
  repeat split; intros H;
    apply scan_items_at in H as (pre & w & t & _ & E);
    by apply lazy_match_anatomy in E.
Qed.

Lemma lang_chr c w : lang is_decimal (One (Chr c)) w -> w = [c].
Proof.
  intros L. inversion L as [|? c' Hc| | | | |]; subst. simpl in Hc.
  by apply N.eqb_eq in Hc as ->.
Qed.

Lemma lang_plus_digits w :
  lang is_decimal (Plus Digit) w -> digit_run is_decimal w.
Proof.
  intros L. unfold Plus in L.
  inversion L as [| | |? ? w1 w2 L1 L2| | |]; subst.
  inversion L1 as [|? c Hc| | | | |]; subst.
  inversion L2 as [| |? ? ? Hw| | | |]; subst.
  split; [done|]. by constructor.
Qed.

(** A greedy run in front of a continuation that always succeeds takes
    every code point of the class. *)
Lemma star_greedy_total cs s (k : pystr -> option outcome) x :
  (forall t, is_Some (k t)) ->
  star_greedy is_decimal cs s k = Some x ->
  exists w t,
    s = w ++ t /\ accepted cs w /\ k t = Some x
    /\ match t with c :: _ => mem cs c = false | [] => True end.
Proof.
  intros Hk. revert x. induction s as [|c s IH]; intros x H; simpl in H.
  - by exists [], [].
  - destruct (mem cs c) eqn:E; [|by exists [], (c :: s)].
    destruct (star_greedy_base is_decimal cs s k (Hk s)) as [y Hy].
    rewrite Hy in H. inversion H; subst y.
    destruct (IH x Hy) as (w & t & -> & Hw & Hx & Ht).
    exists (c :: w), t. repeat split; auto.
Qed.

Lemma plus_digits_total s g (k : cont) x :
  (forall t g', is_Some (k t g')) ->
  mt is_decimal (Plus Digit) s g k = Some x ->
  exists d t,
    s = d ++ t /\ digit_run is_decimal d /\ k t g = Some x
    /\ no_digit_ahead is_decimal t.
Proof.
  intros Hk H. simpl in H. destruct s as [|c s]; [done|].
  destruct (is_decimal c) eqn:E; [|done].
  apply star_greedy_total in H as (w & t & -> & Hw & Hx & Ht); [|by auto].
  exists (c :: w), t.
  split; [done|]. split; [split; [done|by constructor]|].
  split; [done|by destruct t].
Qed.

(** The anatomy of a match of the pattern of the address in front of a
    continuation that always succeeds. *)
Lemma dotted_anatomy s g (k : cont) x :
  (forall t g', is_Some (k t g')) ->
  mt is_decimal pat_dotted s g k = Some x ->
  exists a b c d t,
    s = dotted_quad a b c d ++ t
    /\ digit_run is_decimal a /\ digit_run is_decimal b
    /\ digit_run is_decimal c /\ digit_run is_decimal d
    /\ no_digit_ahead is_decimal t
    /\ k t g = Some x.
Proof.
  intros Hk H. unfold pat_dotted in H. rewrite mt_seq in H.
  apply mt_sound in H as (w & s6 & g6 & -> & L & H & Hcap).
  assert (g6 = g) as ->.
  { destruct Hcap as [->|(c & _ & Hc & _)]; [done|].
    simpl in Hc. tauto. }
  apply plus_digits_total in H as (d & t & -> & Hd & Hx & Ht); [|done].
  inversion L as [| | |? ? w5 p3 L5 L6| | |]; subst.
  inversion L5 as [| | |? ? w4 c3 L4 Lc| | |]; subst.
  inversion L4 as [| | |? ? w3 p2 L3 Lp2| | |]; subst.
  inversion L3 as [| | |? ? w2 c2 L2 Lc2| | |]; subst.
  inversion L2 as [| | |? ? a p1 La Lp1| | |]; subst.
  apply lang_chr in L6 as ->. apply lang_chr in Lp2 as ->.
  apply lang_chr in Lp1 as ->.
  apply lang_plus_digits in La. apply lang_plus_digits in Lc2.
  apply lang_plus_digits in Lc.
  exists a, c2, c3, d, t. unfold dotted_quad.
  split; [|tauto].
  repeat (rewrite <- app_comm_cons || rewrite <- app_assoc
          || rewrite app_nil_l).
  reflexivity.
Qed.

(** The anatomy of a match of the search for addresses. *)
Lemma ip_match_anatomy s n ip :
  match_here is_decimal pat_ip s = Some (n, ip) ->
  exists x rest a b c d,
    s = (u "🏠 住宅IP" ++ x ++ ip) ++ rest
    /\ n = length (u "🏠 住宅IP" ++ x ++ ip)
    /\ Forall (fun c => c <> 10) x
    /\ ip = dotted_quad a b c d
    /\ digit_run is_decimal a /\ digit_run is_decimal b
    /\ digit_run is_decimal c /\ digit_run is_decimal d
    /\ no_digit_ahead is_decimal rest
    /\ forall i w t, (i < length x)%nat ->
                     drop i (x ++ ip ++ rest) = w ++ t ->
                     ~ lang is_decimal pat_dotted w.
Proof.
  unfold match_here, pat_ip. rewrite !mt_seq. intros H.
  destruct (mt is_decimal (Lit _) _ _ _) as [[s' g]|] eqn:E; [|discriminate].
  inversion H; subst n ip; clear H.
  apply mt_lit_sound in E as (s1 & -> & E).
  apply star_lazy_sound in E as (x & s2 & -> & Hx & E & Hmin).
  change (mt is_decimal (Group pat_dotted) s2 None ?k)
    with (mt is_decimal pat_dotted s2 None
            (fun s' _ => k s' (Some (take (length s2 - length s') s2))))
    in E.
  apply dotted_anatomy in E
      as (a & b & c & d & rest & -> & Ha & Hb & Hc & Hd & Hrest & E);
    [|by eauto].
  rewrite length_app, Nat.add_sub, take_app_length in E.
  inversion E; subst s' g; clear E.
  exists x, rest, a, b, c, d. simpl default.
  split; [by rewrite <- !app_assoc|]. split.
  { rewrite !length_app. lia. }
  split; [by apply accepted_dot|]. do 6 (split; [done|]).
  intros i w t Hi Ed L. specialize (Hmin i Hi).
  rewrite Ed in Hmin.
  destruct (mt_complete is_decimal (Group pat_dotted) w (lang_group _ _ _ L)
              t None (fun s' g => Some (s', g))) as [y Hy]; [|eauto|].
  - intros ? ? ? _. eauto.
  - congruence.
Qed.

(** X9. Every address the search extracts is four runs of decimal digits,
    none of them empty, joined by three full stops: an extracted address is
    never empty and holds nothing but digits and full stops.  The runs are
    not checked against the range of an octet. *)
Theorem extracted_address_shape content ip :
  In ip (findall is_decimal pat_ip content) ->
  exists a b c d,
    ip = dotted_quad a b c d
    /\ digit_run is_decimal a /\ digit_run is_decimal b
    /\ digit_run is_decimal c /\ digit_run is_decimal d.
Proof.
  intros H. apply scan_items_at in H as (pre & w & t & _ & E).
  apply ip_match_anatomy in E
      as (x & rest & a & b & c & d & _ & _ & _ & E & Ha & Hb & Hc & Hd & _).
  by exists a, b, c, d.
Qed.

(** X10. Every extracted address is the first one after its marker, and it
    is taken whole: in the text between the marker and the address no
    address starts, and the code point after the address is not a digit. *)
Theorem extracted_address_is_first_and_whole content ip :
  In ip (findall is_decimal pat_ip content) ->
  exists pre x rest,
    content = pre ++ (u "🏠 住宅IP" ++ x ++ ip) ++ rest
    /\ no_digit_ahead is_decimal rest
    /\ forall i w t, (i < length x)%nat ->
                     drop i (x ++ ip ++ rest) = w ++ t ->
                     ~ lang is_decimal pat_dotted w.
Proof.
  intros H. apply scan_items_at in H as (pre & w & t & -> & E).
  apply ip_match_anatomy in E
      as (x & rest & a & b & c & d & Es & _ & _ & _ & _ & _ & _ & _
          & Hrest & Hfirst).
  exists pre, x, rest. by rewrite Es.
Qed.

(** X11. Every extracted address stands on the line of its marker: the
    marker, the text up to the address and the address are a piece of one
    line of the log.  An address on a later line is not paired with the
    marker. *)
Theorem extracted_address_on_marker_line content ip :
  is_decimal 10 = false ->
  In ip (findall is_decimal pat_ip content) ->
  exists x, within_one_line content (u "🏠 住宅IP" ++ x ++ ip).
Proof.
  intros H10 H. apply scan_items_at in H as (pre & w & t & -> & E).
  apply ip_match_anatomy in E
      as (x & rest & a & b & c & d & Es & _ & Hx & -> & Ha & Hb & Hc & Hd
          & _).
  exists x. apply substring_within_line.
  - exists pre, rest. by rewrite Es.
  - assert (forall r, digit_run is_decimal r ->
                      Forall (fun c => c <> 10) r) as Hrun.
    { intros r [_ Hr]. eapply Forall_impl; [exact Hr|]. simpl.
      intros c0 Hc0 ->. congruence. }
    unfold dotted_quad.
    apply Forall_app. split.
    { vm_compute. by repeat constructor. }
    apply Forall_app. split; [done|].
    apply Forall_app. split; [by apply Hrun|]. constructor; [done|].
    apply Forall_app. split; [by apply Hrun|]. constructor; [done|].
    apply Forall_app. split; [by apply Hrun|]. constructor; [done|].
    by apply Hrun.
Qed.

End MatchFacts.

(** * The greedy categories *)

Section GreedyFacts.

Variable is_decimal : N -> bool.

Local Abbreviation mem := (cset_mem is_decimal).
Local Abbreviation accepted cs := (Forall (fun c => mem cs c = true)).

(** A greedy run gives back as little as it can: no longer run of the
    class lets the rest of the pattern succeed. *)
Lemma star_greedy_last cs s (k : pystr -> option outcome) x :
  star_greedy is_decimal cs s k = Some x ->
  exists w t,
    s = w ++ t /\ accepted cs w /\ k t = Some x
    /\ forall w' t', s = w' ++ t' -> accepted cs w' ->
                     (length w < length w')%nat -> k t' = None.
Proof.
  revert x. induction s as [|c s IH]; intros x H; simpl in H.
  - exists [], []. repeat split; auto.
    intros w' t' E _ Hlen. symmetry in E.
    apply app_eq_nil in E as [-> _]. simpl in Hlen. lia.
  - destruct (mem cs c) eqn:Ec.
    + destruct (star_greedy is_decimal cs s k) as [y|] eqn:E.
      * inversion H; subst y.
        destruct (IH x eq_refl) as (w & t & -> & Hw & Hk & Hmax).
        exists (c :: w), t. repeat split; auto.
        intros [|c' w'] t' E' Hw' Hlen; [simpl in Hlen; lia|].
        inversion E' as [[Hc E'']]. inversion Hw'; subst.
        apply (Hmax w' t'); auto. simpl in Hlen. lia.
      * exists [], (c :: s). repeat split; auto.
        intros [|c' w'] t' E' Hw' Hlen; [simpl in Hlen; lia|].
        inversion E' as [[Hc E'']]. inversion Hw'; subst.
        destruct (k t') eqn:Ek; [|done].
        destruct (star_greedy_complete is_decimal cs w' t' k) as [y Hy];
          eauto. congruence.
    + exists [], (c :: s). repeat split; auto.
      intros [|c' w'] t' E' Hw' Hlen; [simpl in Hlen; lia|].
      inversion E' as [[Hc E'']]. inversion Hw'; subst. congruence.
Qed.

Lemma dot_accepts x : Forall (fun c => c <> 10) x -> accepted Dot x.
Proof.
  intros H. eapply Forall_impl; [exact H|]. simpl. intros c Hc.
  apply N.eqb_neq in Hc. by rewrite Hc.
Qed.

(** A literal, a greedy run, a literal: the match reaches the last closing
    phrase of the line. *)
Lemma greedy_last_on_line p q :
  q <> [] -> Forall (fun c => c <> 10) q ->
  last_on_line is_decimal q (Lit p · Star true Dot · Lit q).
Proof.
  intros Hq Hnl s n item mid t H Hdrop Hmid.
  unfold match_here in H. simpl in H.
  destruct (mt is_decimal (Lit p) _ _ _) as [[s' g]|] eqn:E; [|discriminate].
  inversion H; subst n item; clear H.
  apply mt_lit_sound in E as (s1 & -> & E).
  apply star_greedy_last in E as (x & t0 & -> & Hx & E & Hmax).
  apply mt_lit_sound in E as (s3 & -> & E). inversion E; subst s' g; clear E.
  assert (drop (length (p ++ x ++ q ++ s3) - length s3) (p ++ x ++ q ++ s3)
          = s3) as Es3.
  { replace (p ++ x ++ q ++ s3) with ((p ++ x ++ q) ++ s3)
      by (by rewrite <- !app_assoc).
    by rewrite length_app, Nat.add_sub, drop_app_length. }
  rewrite Es3 in Hdrop. subst s3.
  specialize (Hmax (x ++ q ++ mid) (q ++ t)).
  rewrite mt_lit_app in Hmax. discriminate Hmax.
  - by rewrite <- !app_assoc.
  - apply Forall_app. split; [done|].
    apply dot_accepts, Forall_app. by split.
  - rewrite !length_app. destruct q; [done|]. simpl. lia.
Qed.

Lemma seq_closes_with r q : closes_with is_decimal q (r · Lit q).
Proof.
  intros w L. inversion L as [| | |? ? w1 w2 L1 L2| | |]; subst.
  apply lang_lit in L2 as ->. eauto.
Qed.

Lemma lang_alt_inv r1 r2 w :
  lang is_decimal (Alt r1 r2) w ->
  lang is_decimal r1 w \/ lang is_decimal r2 w.
Proof. intros L. inversion L; subst; auto. Qed.

Lemma match_here_alt r1 r2 s :
  has_group r1 = false -> has_group r2 = false ->
  match_here is_decimal (Alt r1 r2) s
  = match match_here is_decimal r1 s with
    | Some y => Some y
    | None => match_here is_decimal r2 s
    end.
Proof.
  intros H1 H2. unfold match_here. simpl. rewrite H1, H2. simpl.
  destruct (mt is_decimal r1 s None _) as [[s' g]|]; [done|].
  by destruct (mt is_decimal r2 s None _) as [[s' g]|].
Qed.

Section OnePerLine.

Variable r : re.
Variable q : pystr.
Hypothesis r_not_nullable : nullable r = false.
Hypothesis r_nl_free : nl_free is_decimal r = true.
Hypothesis r_closes : closes_with is_decimal q r.
Hypothesis r_last : last_on_line is_decimal q r.

Lemma no_match_at_line_feed s :
  match_here is_decimal r (10 :: s) = None.
Proof.
  destruct (match_here is_decimal r (10 :: s)) as [[n item]|] eqn:E; [|done].
  apply match_here_sound in E as (w & t & Es & _ & L & _).
  pose proof (lang_nl_free is_decimal r w L r_nl_free) as Hw.
  destruct w as [|c w].
  - apply lang_nullable in L; [congruence|done].
  - inversion Es; subst c. by inversion Hw.
Qed.

(** The rest of the line after a match holds no further match. *)
Lemma scan_rest_of_line s n item l t' :
  match_here is_decimal r s = Some (n, item) ->
  drop n s = l ++ t' ->
  Forall (fun c => c <> 10) l ->
  t' = [] \/ (exists t'', t' = 10 :: t'') ->
  scan is_decimal r (l ++ t') 0 = scan is_decimal r t' 0.
Proof.
  intros Hm Hdrop Hl Ht'.
  assert (forall l1 l2, l = l1 ++ l2 ->
            scan is_decimal r (l2 ++ t') 0 = scan is_decimal r t' 0) as H.
  { intros l1 l2. revert l1.
    induction l2 as [|c l2 IH]; intros l1 El; [done|].
    simpl app. rewrite scan_miss.
    - apply (IH (l1 ++ [c])). by rewrite <- app_assoc.
    - destruct (match_here is_decimal r (c :: l2 ++ t')) as [[n2 i2]|] eqn:E;
        [|done].
      exfalso.
      apply match_here_sound in E as (w & t & Es & _ & L & _).
      pose proof (lang_nl_free is_decimal r w L r_nl_free) as Hw.
      destruct (r_closes w L) as (v & ->).
      assert (exists y, c :: l2 = (v ++ q) ++ y /\ t = y ++ t') as (y & Ey & ->).
      { change (c :: l2 ++ t') with ((c :: l2) ++ t') in Es.
        apply app_eq_app in Es as (y & [[Ea Eb]|[Ea Eb]]); [eauto|].
        destruct y as [|c' y]; [exists []; rewrite app_nil_r in *; by subst|].
        exfalso. destruct Ht' as [->|(t'' & ->)]; [done|].
        inversion Eb; subst c'. rewrite Ea in Hw.
        apply Forall_app in Hw as [_ Hw]. by inversion Hw. }
      apply (r_last s n item (l1 ++ v) (y ++ t') Hm).
      + rewrite Hdrop, El, Ey. by rewrite <- !app_assoc.
      + rewrite El in Hl. apply Forall_app in Hl as [Hl1 Hl2].
        rewrite Ey in Hl2. apply Forall_app in Hl2 as [Hl2 _].
        apply Forall_app in Hl2 as [Hv _]. apply Forall_app. by split. }
  by apply (H []).
Qed.

Lemma line_split t :
  exists l t', t = l ++ t' /\ Forall (fun c => c <> 10) l
               /\ (t' = [] \/ exists t'', t' = 10 :: t'').
Proof.
  induction t as [|c t (l & t' & -> & Hl & Ht')].
  - exists [], []. repeat split; auto.
  - destruct (decide (c = 10)) as [->|Hc].
    + exists [], (10 :: l ++ t'). repeat split; eauto.
    + exists (c :: l), t'. repeat split; auto.
Qed.

Lemma lines_of_cons c s :
  (length (lines_of s) <= length (lines_of (c :: s)))%nat.
Proof.
  simpl. destruct (c =? 10); [simpl; lia|].
  destruct (lines_of s); simpl; lia.
Qed.

Lemma scan_one_per_line n : forall s,
  (length s <= n)%nat ->
  (length (scan is_decimal r s 0) <= length (lines_of s))%nat.
Proof.
  induction n as [|n IH]; intros s Hlen.
  - destruct s; [simpl; lia|simpl in Hlen; lia].
  - destruct s as [|c s]; [simpl; lia|]. simpl in Hlen.
    destruct (match_here is_decimal r (c :: s)) as [[k item]|] eqn:E.
    + pose proof E as E'.
      apply match_here_sound in E' as (w & t & Es & -> & L & _).
      pose proof (lang_nl_free is_decimal r w L r_nl_free) as Hw.
      assert (w <> []) as Hne.
      { intros ->. apply lang_nullable in L; [congruence|done]. }
      rewrite Es in *.
      assert (exists i, scan is_decimal r (w ++ t) 0
                        = i :: scan is_decimal r t 0) as (i & ->).
      { destruct w as [|c' w]; [done|]. simpl in *. rewrite E. simpl.
        rewrite Nat.sub_0_r, scan_skip. eauto. }
      destruct (line_split t) as (l & t' & -> & Hl & Ht').
      rewrite (scan_rest_of_line (w ++ l ++ t') (length w) item l t');
        auto; [|by rewrite drop_app_length].
      assert (length (w ++ l ++ t') = S (length s)) as Hs
          by (by rewrite <- Es).
      rewrite !length_app in Hs.
      destruct Ht' as [->|(t'' & ->)].
      * simpl. destruct (lines_of_nonempty (w ++ l ++ [])) as (? & ? & ->).
        simpl. lia.
      * rewrite scan_miss by apply no_match_at_line_feed.
        rewrite app_assoc.
        destruct (lines_of_app (w ++ l) (10 :: t''))
          as (l0 & ls & E0 & ->); [by apply Forall_app|].
        simpl in E0. inversion E0; subst l0 ls. simpl.
        assert (length (scan is_decimal r t'' 0)
                <= length (lines_of t''))%nat; [|lia].
        apply IH. simpl in Hs. destruct w; [done|]. simpl in Hs. lia.
    + rewrite scan_miss by done.
      etrans; [apply IH; lia|apply lines_of_cons].
Qed.

End OnePerLine.

(** X12. The categories of the GeoIP error and of the country code count
    at most one match per line of the log: their patterns are greedy, so a
    match swallows every later record of the same line. *)
Theorem greedy_categories_one_per_line content :
  (length (findall is_decimal pat_geoip content)
   <= length (lines_of content))%nat
  /\ (length (findall is_decimal pat_country content)
      <= length (lines_of content))%nat.
Proof.
  assert (u "未加载" <> [] /\ Forall (fun c => c <> 10) (u "未加载"))
    as [Hq1 Hn1] by (vm_compute; split; [done|by repeat constructor]).
  assert (u "查询" <> [] /\ Forall (fun c => c <> 10) (u "查询"))
    as [Hq2 Hn2] by (vm_compute; split; [done|by repeat constructor]).
  split.
  - apply (scan_one_per_line pat_geoip (u "未加载")) with (n := length content);
      [reflexivity|reflexivity|..|lia].
    + intros w L. unfold pat_geoip in L.
      apply lang_alt_inv in L as [L|L]; exact (seq_closes_with _ _ w L).
    + intros s n item mid t H. unfold pat_geoip in H.
      rewrite match_here_alt in H by reflexivity.
      destruct (match_here is_decimal
                  (Lit (u "GeoIP") · Star true Dot · Lit (u "未加载")) s)
        as [y|] eqn:E.
      * inversion H; subst y.
        exact (greedy_last_on_line _ _ Hq1 Hn1 s n item mid t E).
      * exact (greedy_last_on_line _ _ Hq1 Hn1 s n item mid t H).
  - apply (scan_one_per_line pat_country (u "查询"))
      with (n := length content); [reflexivity|reflexivity|..|lia].
    + intros w L. exact (seq_closes_with _ _ w L).
    + by apply greedy_last_on_line.
Qed.

End GreedyFacts.

(** * The pattern loop *)

Section CategoryClaims.

Variable is_decimal : N -> bool.

(** A literal, a lazy run, a literal: the shortest word at the place. *)
Lemma lazy_selects p cs q :
  selects is_decimal Shortest (Lit p · Star false cs · Lit q)%re.
Proof. exact (lazy_shortest is_decimal p cs q). Qed.

(** A literal, a greedy run, a literal: the longest word at the place. *)
Lemma greedy_selects p cs q :
  selects is_decimal Longest (Lit p · Star true cs · Lit q)%re.
Proof.
  intros s n item w t H -> L. unfold match_here in H. simpl in H.
  destruct (mt is_decimal (Lit p) _ _ _) as [[s' g]|] eqn:E; [|discriminate].
  inversion H; subst n item; clear H.
  apply mt_lit_sound in E as (s1 & Es & E).
  apply star_greedy_last in E as (d & s2 & -> & _ & E & Hmax).
  apply mt_lit_sound in E as (s3 & -> & E). inversion E; subst s' g; clear E.
  inversion L as [| | |r1 r2 w12 w3 L12 L3| | |]; subst.
  inversion L12 as [| | |r1 r2 w1 w2 L1 L2| | |]; subst.
  apply lang_lit in L1 as ->. apply lang_lit in L3 as ->.
  inversion L2 as [| |b cs' w2' Hw2| | | |]; subst.
  rewrite <- !app_assoc in Es. apply app_inv_head in Es.
  pose proof (f_equal length Es) as Hl.
  simpl. rewrite <- !app_assoc, !length_app. rewrite !length_app in Hl.
  destruct (decide (length d < length w2)%nat) as [Hlt|]; [|lia].
  specialize (Hmax w2 (q ++ t) (eq_sym Es) Hw2 Hlt).
  rewrite mt_lit_app in Hmax. discriminate.
Qed.

(** Two alternatives that never start at the same place: the choice
    between them does not change which word is taken. *)
Lemma alt_selects sel r1 r2 :
  has_group r1 = false -> has_group r2 = false ->
  (forall w1 t1 w2 t2,
      lang is_decimal r1 w1 -> lang is_decimal r2 w2 ->
      w1 ++ t1 <> w2 ++ t2) ->
  selects is_decimal sel r1 -> selects is_decimal sel r2 ->
  selects is_decimal sel (Alt r1 r2).
Proof.
  intros G1 G2 Hapart S1 S2 s n item w t H -> L.
  rewrite (match_here_alt is_decimal r1 r2 _ G1 G2) in H.
  apply lang_alt_inv in L as [L|L].
  - destruct (match_here_complete is_decimal r1 w t L) as [y Hy].
    rewrite Hy in H. inversion H; subst y.
    by apply (S1 _ _ _ _ _ Hy eq_refl).
  - destruct (match_here is_decimal r1 (w ++ t)) as [[n1 item1]|] eqn:E.
    + apply match_here_sound in E as (w1 & t1 & Es & _ & L1 & _).
      by destruct (Hapart w1 t1 w t L1 L).
    + by apply (S2 _ _ _ _ _ H eq_refl).
Qed.

(** The two alternatives of the GeoIP pattern start with different
    letters. *)
Lemma geoip_selects : selects is_decimal Longest pat_geoip.
Proof.
  unfold pat_geoip.
  apply alt_selects; try apply greedy_selects.
  - reflexivity.
  - reflexivity.
  - intros w1 t1 w2 t2 L1 L2 E. simpl in L1, L2.
    apply lang_lit_head in L1 as [w1' ->].
    apply lang_lit_head in L2 as [w2' ->].
    simpl in E. inversion E.
Qed.

(** The block of one category against the occurrences of its pattern. *)
Lemma category_block sel label r content :
  nullable r = false -> has_group r = false ->
  selects is_decimal sel r ->
  exists ms,
    occurrences_by is_decimal sel r content ms
    /\ (forall ms', occurrences_by is_decimal sel r content ms' -> ms' = ms)
    /\ (ms = [] <-> ~ occurs is_decimal r content)
    /\ pattern_block is_decimal content (label, r)
       = match ms with
         | [] => [not_found_line label]
         | _ => found_line label (N.of_nat (length ms))
                :: map bullet (take 3 ms)
         end
    /\ (length (take 3 ms) <= 3)%nat
    /\ value_of (str_of_N (N.of_nat (length ms)))
       = Some (N.of_nat (length ms)).
Proof.
  intros Hn Hg Hsel. exists (findall is_decimal r content).
  split; [by apply findall_occurrences_by|].
  split; [intros ms'; by apply occurrences_by_findall|].
  split; [by apply findall_nil_iff|].
  split.
  - unfold pattern_block, shown. cbn [fst snd].
    by destruct (findall is_decimal r content).
  - split; [rewrite length_take; lia|apply value_of_str_of_N].
Qed.

(** C3. The pattern loop prints one block per row of the table, in the
    order of the table, and returns normally on a text of scalar values,
    which the text read from a log is.  The block of a row is fixed by the
    occurrences of its pattern in the text: the non-overlapping occurrences
    from left to right, each the shortest at its place for the three lazy
    patterns and the longest for the two greedy ones.  There is exactly one
    such list; when it is empty, which is when the pattern occurs nowhere
    in the text, the block is the one line that says nothing was found;
    otherwise the block is the line with the number of the occurrences, as
    a decimal numeral, and then the first three of them at most.  In
    particular a text without a GeoIP error phrase gets the line that says
    so. *)
Theorem pattern_loop_reports content w :
  (Forall scalar_value content ->
   for_each patterns (report_pattern is_decimal content) w
   = (Ok tt,
      printed w (concat (map (pattern_block is_decimal content) patterns))))
  /\ map fst patterns
     = [ u "住宅IP发现"; u "文件写入"; u "文件删除"; u "GeoIP错误";
         u "国家代码" ]
  /\ Forall2 (fun sel row =>
       exists ms,
         occurrences_by is_decimal sel (snd row) content ms
         /\ (forall ms',
               occurrences_by is_decimal sel (snd row) content ms' ->
               ms' = ms)
         /\ (ms = [] <-> ~ occurs is_decimal (snd row) content)
         /\ pattern_block is_decimal content row
            = match ms with
              | [] => [not_found_line (fst row)]
              | _ => found_line (fst row) (N.of_nat (length ms))
                     :: map bullet (take 3 ms)
              end
         /\ (length (take 3 ms) <= 3)%nat
         /\ value_of (str_of_N (N.of_nat (length ms)))
            = Some (N.of_nat (length ms)))
     row_selection patterns
  /\ (~ occurs is_decimal pat_geoip content ->
      pattern_block is_decimal content (u "GeoIP错误", pat_geoip)
      = [not_found_line (u "GeoIP错误")]).
Proof.
  split.
  { intros Hc. apply pattern_loop_run. by apply encodable_Forall. }
  split; [reflexivity|]. split.
  - unfold row_selection, patterns.
    repeat (apply Forall2_cons; split); try apply Forall2_nil_2.
    + apply category_block; [reflexivity|reflexivity|apply lazy_selects].
    + apply category_block; [reflexivity|reflexivity|apply lazy_selects].
    + apply category_block; [reflexivity|reflexivity|apply lazy_selects].
    + apply category_block; [reflexivity|reflexivity|apply geoip_selects].
    + apply category_block; [reflexivity|reflexivity|apply greedy_selects].
  - intros Ho. unfold pattern_block. cbn [fst snd].
    by rewrite (proj2 (findall_nil_iff is_decimal pat_geoip content
                         eq_refl) Ho).
Qed.

End CategoryClaims.

Lemma pattern_loop_reports_witness :
  Forall scalar_value (u "GeoIP 未加载")
  /\ for_each patterns (report_pattern ascii_digit (u "GeoIP 未加载"))
       empty_world
     = (Ok tt,
        printed empty_world
          (concat (map (pattern_block ascii_digit (u "GeoIP 未加载"))
                       patterns))).
Proof.
  assert (Forall scalar_value (u "GeoIP 未加载")) as H.
  { by apply encodable_Forall. }
  split; [exact H|].
  exact (proj1 (pattern_loop_reports ascii_digit (u "GeoIP 未加载")
                  empty_world) H).
Defined.

(** * The further properties on concrete worlds *)





Lemma listing_of_a_regular_file_witness :
  list_output output_file_world
  = (Ok tt, printed output_file_world [listing_head 0]).
Proof.
  apply (listing_of_a_regular_file output_file_world
           (String.list_byte_of_string "not a directory")).
  vm_compute. reflexivity.
Defined.

Lemma analysis_output_is_bounded_witness :
  exists out,
    analyze_log ascii_digit plain_log_world
    = (Ok tt, printed plain_log_world out)
    /\ (6 <= length out <= 27)%nat.
Proof.
  apply (analysis_output_is_bounded ascii_digit plain_log_world
           (u "GeoIP 数据库未加载")).
  vm_compute. reflexivity.
Defined.

Lemma fmt_thousands_reads_back_witness :
  value_of (filter (fun c => c <> 44) (fmt_thousands 1234567))
  = Some 1234567.
Proof. exact (proj1 (fmt_thousands_reads_back 1234567)). Defined.

Lemma ascii_log_text :
  log_text (fs ascii_log_world) = Some [111; 107; 10; 98].
Proof. vm_compute. reflexivity. Qed.

Lemma no_carriage_return_witness :
  Forall (fun c => c <> 13) [111; 107; 10; 98].
Proof.
  exact (proj1 (no_carriage_return ascii_digit ascii_log_world
                  [111; 107; 10; 98] ascii_log_text)).
Defined.

Lemma quiet_log_witness :
  analyze_log ascii_digit ascii_log_world
  = (Ok tt,
     printed ascii_log_world
       (analysis_heading :: map not_found_line (map fst patterns))).
Proof.
  apply (quiet_log ascii_digit ascii_log_world [111; 107; 10; 98]).
  - exact ascii_log_text.
  - repeat constructor; vm_compute; intuition discriminate.
Defined.

Lemma log_text_is_well_formed_witness :
  Forall scalar_value [111; 107; 10; 98].
Proof.
  exact (proj1 (log_text_is_well_formed ascii_log_world)
               [111; 107; 10; 98] ascii_log_text).
Defined.

Lemma lazy_matches_are_bracketed_witness :
  bracketed (u "💾 已写入") (u "个住宅IP") (u "💾 已写入 5 个住宅IP").
Proof.
  apply (proj1 (proj2 (lazy_matches_are_bracketed ascii_digit
                         (u "x 💾 已写入 5 个住宅IP y")
                         (u "💾 已写入 5 个住宅IP")))).
  vm_compute. auto.
Defined.

Lemma one_address_found :
  In (u "203.0.113.7")
     (findall ascii_digit pat_ip (u "at 🏠 住宅IP: 203.0.113.7 ok")).
Proof. vm_compute. auto. Qed.

Lemma extracted_address_shape_witness :
  exists a b c d,
    u "203.0.113.7" = dotted_quad a b c d
    /\ digit_run ascii_digit a /\ digit_run ascii_digit b
    /\ digit_run ascii_digit c /\ digit_run ascii_digit d.
Proof.
  exact (extracted_address_shape ascii_digit
           (u "at 🏠 住宅IP: 203.0.113.7 ok") (u "203.0.113.7")
           one_address_found).
Defined.

Lemma extracted_address_is_first_and_whole_witness :
  exists pre x rest,
    u "at 🏠 住宅IP: 203.0.113.7 ok"
    = pre ++ (u "🏠 住宅IP" ++ x ++ u "203.0.113.7") ++ rest
    /\ no_digit_ahead ascii_digit rest
    /\ forall i w t, (i < length x)%nat ->
                     drop i (x ++ u "203.0.113.7" ++ rest) = w ++ t ->
                     ~ lang ascii_digit pat_dotted w.
Proof.
  exact (extracted_address_is_first_and_whole ascii_digit
           (u "at 🏠 住宅IP: 203.0.113.7 ok") (u "203.0.113.7")
           one_address_found).
Defined.

Lemma extracted_address_on_marker_line_witness :
  exists x,
    within_one_line (u "at 🏠 住宅IP: 203.0.113.7 ok")
      (u "🏠 住宅IP" ++ x ++ u "203.0.113.7").
Proof.
  exact (extracted_address_on_marker_line ascii_digit
           (u "at 🏠 住宅IP: 203.0.113.7 ok") (u "203.0.113.7")
           eq_refl one_address_found).
Defined.
